(** * Inkycal custom functions: [write], [text_wrap], [draw_border]

    A shallow embedding of [inkycal/custom/functions.py] and the properties
    of its text layout engine.

    Conventions of the embedding:
    - Python [int] values are [Z]; Python [float] values (fill ratios,
      shrinkage, the operands of [/]) are rationals [Q], and [int(x)] is
      truncation toward zero.
    - Python [str] is [string]; [text[0:-1]] is [substring 0 (length - 1)].
    - A [while] loop is the fuelled iterator [while]: [None] means that the
      fuel ran out before the loop condition became false.
    - PIL images are terms recording the primitive operations applied to
      them, so that "which buffer is pasted" is an observable fact. *)

From Stdlib Require Import ZArith QArith List String Ascii Bool Lia.
From Stdlib Require Import Permutation.
Import ListNotations.

Local Open Scope string_scope.
Local Open Scope list_scope.
Local Open Scope Z_scope.

(** ** Python primitives *)

Module Py.

(** [int(x)] for a float [x]: the fractional part is discarded. *)
Definition int (x : Q) : Z := Z.quot (Qnum x) (Zpos (Qden x)).

(** [(a, b) > (c, d)] on tuples: the first differing component decides. *)
Definition tuple_gt (p q : Z * Z) : bool :=
  let '(a, b) := p in
  let '(c, d) := q in
  if negb (a =? c) then a >? c
  else if negb (b =? d) then b >? d
  else false.

(** [s[0:-1]] *)
Definition drop_last (s : string) : string :=
  substring 0 (String.length s - 1) s.

(** [s.split(' ')] *)
Fixpoint split (s : string) : list string :=
  match s with
  | EmptyString => [EmptyString]
  | String c s' =>
      if Ascii.eqb c " "%char then EmptyString :: split s'
      else match split s' with
           | w :: ws => String c w :: ws
           | [] => [String c EmptyString]
           end
  end.

(** [' '.join(l)] *)
Fixpoint join (l : list string) : string :=
  match l with
  | [] => EmptyString
  | [s] => s
  | s :: rest => (s ++ " " ++ join rest)%string
  end.

(** [not s] for a string. *)
Definition is_empty (s : string) : bool :=
  match s with EmptyString => true | _ => false end.

(** A [while cond: body] loop over the state [S] of its variables. *)
Fixpoint while {S : Type} (fuel : nat) (cond : S -> bool)
         (body : S -> option S) (s : S) : option S :=
  if cond s then
    match fuel with
    | O => None
    | Datatypes.S k =>
        match body s with
        | Some s' => while k cond body s'
        | None => None
        end
    end
  else Some s.

(** What a call does: it returns a value or raises. *)
Inductive outcome (A : Type) : Type :=
| Returns (a : A)
| Raises (e : string).
Arguments Returns {A} a.
Arguments Raises {A} e.

End Py.

(** ** The part of PIL the module uses *)

Module PIL.
Import Py.

(** [ImageFont.truetype(path, size)].  The font file behind [path] fixes,
    for every size, what [getsize] measures; [path] is modelled as that
    table. *)
Record Font : Type := truetype {
  path : Z -> string -> Z * Z;
  size : Z
}.

(** [font.getsize(text)] : (width, height) *)
Definition getsize (font : Font) (text : string) : Z * Z :=
  path font (size font) text.

(** An image is the history of the operations that produced it. *)
Inductive Image : Type :=
| New (mode : string) (size : Z * Z)
| Text (im : Image) (fontmode : string) (xy : Z * Z) (text : string)
       (fill : string) (font : Font)
| Rotate (im : Image) (angle : Q) (expand : bool)
| Paste (im : Image) (src : Image) (box : Z * Z) (mask : Image)
| Line (im : Image) (p q : Z * Z) (fill : string) (width : Z)
| Arc (im : Image) (c1 c2 : Z * Z) (start stop : Z) (fill : string)
      (width : Z).

(** Does a [rotate] occur in the history of an image? *)
Fixpoint rotated (im : Image) : bool :=
  match im with
  | New _ _ => false
  | Text im _ _ _ _ _ => rotated im
  | Rotate _ _ _ => true
  | Paste im src _ mask => rotated im || rotated src || rotated mask
  | Line im _ _ _ _ => rotated im
  | Arc im _ _ _ _ _ _ => rotated im
  end.

(** Number of [draw.line] and [draw.arc] calls made directly on an image. *)
Fixpoint lines_drawn (im : Image) : nat :=
  match im with
  | Line im _ _ _ _ => S (lines_drawn im)
  | Arc im _ _ _ _ _ _ => lines_drawn im
  | _ => O
  end.

Fixpoint arcs_drawn (im : Image) : nat :=
  match im with
  | Line im _ _ _ _ => arcs_drawn im
  | Arc im _ _ _ _ _ _ => S (arcs_drawn im)
  | _ => O
  end.

(** [ImageDraw.arc((c1, c2), start, stop, fill, width)].  Pillow refuses a
    bounding box whose second corner lies left of or above the first. *)
Definition arc (im : Image) (c1 c2 : Z * Z) (start stop : Z)
           (fill : string) (width : Z) : outcome Image :=
  if fst c2 <? fst c1
  then Raises "ValueError: x1 must be greater than or equal to x0"
  else if snd c2 <? snd c1
  then Raises "ValueError: y1 must be greater than or equal to y0"
  else Returns (Arc im c1 c2 start stop fill width).

End PIL.

Import Py PIL.

(** ** [write] *)

Module Write.

(** A value passed for [alignment]. *)
Inductive value : Type :=
| PyNone
| PyStr (s : string).

Definition value_eqb (a b : value) : bool :=
  match a, b with
  | PyNone, PyNone => true
  | PyStr s, PyStr t => String.eqb s t
  | _, _ => false
  end.

(** [**kwargs]: each recognised key is absent ([None]) or present; [others]
    are the remaining keys. *)
Record Kwargs : Type := {
  kw_alignment : option value;
  kw_autofit : option bool;
  kw_colour : option string;
  kw_rotation : option Q;
  kw_fill_width : option Q;
  kw_fill_height : option Q;
  kw_others : list string
}.

Definition no_kwargs : Kwargs :=
  {| kw_alignment := None; kw_autofit := None; kw_colour := None;
     kw_rotation := None; kw_fill_width := None; kw_fill_height := None;
     kw_others := [] |}.

Definition default {A : Type} (o : option A) (d : A) : A :=
  match o with Some a => a | None => d end.

(** The messages printed by the validation loop, which changes nothing
    else. *)
Definition warnings (kwargs : Kwargs) : list string :=
  map (fun key => (key ++ " does not exist")%string) (kw_others kwargs).

(** [text_width, text_height = font.getsize(text)[0], font.getsize('hg')[1]] *)
Definition measure (font : Font) (text : string) : Z * Z :=
  (fst (getsize font text), snd (getsize font "hg")).

(** Variables of the autofit loop. *)
Record FitState : Type := {
  fs_size : Z;
  fs_font : Font;
  fs_text_width : Z;
  fs_text_height : Z
}.

Definition fit_init (font : Font) (text : string) : FitState :=
  let size := 8 in
  let font := truetype (path font) size in
  let '(text_width, text_height) := measure font text in
  {| fs_size := size; fs_font := font;
     fs_text_width := text_width; fs_text_height := text_height |}.

Definition fit_cond (box_size : Z * Z) (fill_width fill_height : Q)
           (s : FitState) : bool :=
  let '(box_width, box_height) := box_size in
  (fs_text_width s <? Py.int (inject_Z box_width * fill_width)%Q)
  && (fs_text_height s <? Py.int (inject_Z box_height * fill_height)%Q).

Definition fit_body (text : string) (s : FitState) : option FitState :=
  let size := fs_size s + 1 in
  let font := truetype (path (fs_font s)) size in
  let '(text_width, text_height) := measure font text in
  Some {| fs_size := size; fs_font := font;
          fs_text_width := text_width; fs_text_height := text_height |}.

Definition autofit_triggered (autofit : bool) (fill_width fill_height : Q)
  : bool :=
  Bool.eqb autofit true
  || negb (Qeq_bool fill_width 1)
  || negb (Qeq_bool fill_height (8 # 10)).

(** Lines 67-76: the font after the autofit block. *)
Definition fit (fuel : nat) (box_size : Z * Z) (text : string)
           (font : Font) (autofit : bool) (fill_width fill_height : Q)
  : option Font :=
  if autofit_triggered autofit fill_width fill_height then
    match while fuel (fit_cond box_size fill_width fill_height)
                (fit_body text) (fit_init font text) with
    | Some s => Some (fs_font s)
    | None => None
    end
  else Some font.

(** Variables of the truncation loop. *)
Record TruncState : Type := {
  ts_text : string;
  ts_text_width : Z;
  ts_text_height : Z
}.

Definition trunc_init (font : Font) (text : string) : TruncState :=
  let '(text_width, text_height) := measure font text in
  {| ts_text := text;
     ts_text_width := text_width; ts_text_height := text_height |}.

Definition trunc_cond (box_size : Z * Z) (s : TruncState) : bool :=
  tuple_gt (ts_text_width s, ts_text_height s) box_size.

Definition trunc_body (font : Font) (s : TruncState) : option TruncState :=
  let text := drop_last (ts_text s) in
  let '(text_width, text_height) := measure font text in
  Some {| ts_text := text;
          ts_text_width := text_width; ts_text_height := text_height |}.

(** Lines 78-87: measure, then truncate while the tuple comparison holds. *)
Definition truncate (fuel : nat) (box_size : Z * Z) (font : Font)
           (text : string) : option TruncState :=
  let s := trunc_init font text in
  if trunc_cond box_size s then
    while fuel (trunc_cond box_size) (trunc_body font) s
  else Some s.

(** [alignment == "center" or None]: the value of [or] is its left operand
    when that is true and [None], which is false, otherwise. *)
Definition center_or_None (alignment : value) : bool :=
  if value_eqb alignment (PyStr "center") then true else false.

(** Lines 89-97: the offsets of the text inside the box. *)
Definition align (alignment : value) (xy box_size : Z * Z)
           (text_width text_height : Z) : Z * Z :=
  let '(x, y) := xy in
  let '(box_width, box_height) := box_size in
  let x :=
    if center_or_None alignment then
      Py.int (inject_Z box_width / 2 - inject_Z text_width / 2)%Q
    else if value_eqb alignment (PyStr "left") then 0
    else if value_eqb alignment (PyStr "right") then
      Py.int (inject_Z (box_width - text_width))
    else x in
  let y := Py.int (inject_Z box_height / 2 - inject_Z text_height / 2)%Q in
  (x, y).

(** The variables of [write] when it returns. *)
Record Locals : Type := {
  w_font : Font;
  w_text : string;
  w_text_width : Z;
  w_text_height : Z;
  w_x : Z;
  w_y : Z;
  w_space : Image;
  w_image : Image
}.

Definition write (fuel : nat) (image : Image) (xy box_size : Z * Z)
           (text : string) (font : Font) (kwargs : Kwargs)
  : option Locals :=
  let alignment := default (kw_alignment kwargs) (PyStr "center") in
  let autofit := default (kw_autofit kwargs) false in
  let fill_width := default (kw_fill_width kwargs) 1%Q in
  let fill_height := default (kw_fill_height kwargs) (8 # 10)%Q in
  let colour := default (kw_colour kwargs) "black" in
  let rotation := kw_rotation kwargs in
  match fit fuel box_size text font autofit fill_width fill_height with
  | None => None
  | Some font =>
      match truncate fuel box_size font text with
      | None => None
      | Some t =>
          let text := ts_text t in
          let text_width := ts_text_width t in
          let text_height := ts_text_height t in
          let '(x, y) := align alignment xy box_size text_width text_height in
          let space := New "RGBA" box_size in
          let space := Text space "1" (x, y) text colour font in
          (* space.rotate(...) builds a new image; its value is dropped *)
          let _ := match rotation with
                   | Some angle => Some (Rotate space angle true)
                   | None => None
                   end in
          let image := Paste image space xy space in
          Some {| w_font := font; w_text := text;
                  w_text_width := text_width; w_text_height := text_height;
                  w_x := x; w_y := y; w_space := space; w_image := image |}
      end
  end.

(** *** The runs of the two loops *)

(** The autofit state after [k] rounds: size [8 + k]. *)
Definition fit_run (font : Font) (text : string) (k : nat) : FitState :=
  let size := 8 + Z.of_nat k in
  {| fs_size := size; fs_font := truetype (path font) size;
     fs_text_width := fst (path font size text);
     fs_text_height := snd (path font size "hg") |}.

(** The autofit loop condition as a function of the size under test. *)
Definition grows (font : Font) (text : string) (box_size : Z * Z)
           (fill_width fill_height : Q) (size : Z) : bool :=
  (fst (path font size text)
     <? Py.int (inject_Z (fst box_size) * fill_width)%Q)
  && (snd (path font size "hg")
        <? Py.int (inject_Z (snd box_size) * fill_height)%Q).

(** The text after [n] rounds of truncation. *)
Definition dropped (n : nat) (text : string) : string :=
  Nat.iter n drop_last text.

(** The truncation state after [n] rounds. *)
Definition trunc_run (font : Font) (text : string) (n : nat) : TruncState :=
  trunc_init font (dropped n text).

(** [(text_width, text_height) > (box_width, box_height)] is false. *)
Definition fits (font : Font) (box_size : Z * Z) (text : string) : bool :=
  negb (tuple_gt (measure font text) box_size).

End Write.

(** ** [text_wrap] *)

Module TextWrap.

(** [font.getsize(s)[0]] *)
Definition width (font : Font) (s : string) : Z := fst (getsize font s).

(** Variables of the inner loop: the line being built and the index. *)
Record Inner : Type := { in_line : string; in_i : nat }.

(** Variables of the outer loop: the index and the lines emitted so far. *)
Record Outer : Type := { out_i : nat; out_lines : list string }.

Section Loops.
Variable font : Font.
Variable max_width : Z.
Variable words : list string.

(** [i < len(words) and font.getsize(line + words[i])[0] <= max_width];
    [words[i]] is only evaluated when the index is in range. *)
Definition inner_cond (s : Inner) : bool :=
  (in_i s <? List.length words)%nat
  && (width font (in_line s ++ nth (in_i s) words "") <=? max_width).

Definition inner_body (s : Inner) : option Inner :=
  Some {| in_line := (in_line s ++ nth (in_i s) words "" ++ " ")%string;
          in_i := S (in_i s) |}.

Definition outer_cond (s : Outer) : bool :=
  (out_i s <? List.length words)%nat.

(** One round of the outer loop.  [words[i]] on line 144 is an indexing
    that fails when [i] is out of range. *)
Definition outer_body (fuel : nat) (s : Outer) : option Outer :=
  match while fuel inner_cond inner_body
              {| in_line := ""; in_i := out_i s |} with
  | None => None
  | Some r =>
      if is_empty (in_line r) then
        match nth_error words (in_i r) with
        | Some w => Some {| out_i := S (in_i r);
                            out_lines := out_lines s ++ [w] |}
        | None => None
        end
      else Some {| out_i := in_i r;
                   out_lines := out_lines s ++ [in_line r] |}
  end.
End Loops.

Definition text_wrap (fuel : nat) (text : string) (font : Font)
           (max_width : Z) : option (list string) :=
  if width font text <? max_width then Some [text]
  else
    let words := split text in
    match while fuel (outer_cond words)
                (outer_body font max_width words fuel)
                {| out_i := 0; out_lines := [] |} with
    | Some s => Some (out_lines s)
    | None => None
    end.

(** The line that accumulating the words [g] builds. *)
Fixpoint greedy (g : list string) : string :=
  match g with
  | [] => ""
  | w :: g' => (w ++ " " ++ greedy g')%string
  end.

(** How an emitted line arises from the group of words it consumes:
    accumulated with a space after every word, or one word that does not
    fit, emitted as it is. *)
Inductive emitted (font : Font) (max_width : Z)
  : list string -> string -> Prop :=
| Accumulated (g : list string) :
    g <> [] ->
    width font (drop_last (greedy g)) <= max_width ->
    emitted font max_width g (greedy g)
| Forced (w : string) :
    max_width < width font w ->
    emitted font max_width [w] w.

(** Invariant of the inner loop started at index [i0]: the line holds the
    [k] words consumed so far, and without its last space it fits. *)
Definition inner_inv (font : Font) (max_width : Z) (words : list string)
           (i0 : nat) (s : Inner) : Prop :=
  exists k : nat,
    in_i s = (i0 + k)%nat
    /\ (i0 + k <= List.length words)%nat
    /\ in_line s = greedy (firstn k (skipn i0 words))
    /\ ((0 < k)%nat -> width font (drop_last (in_line s)) <= max_width).

(** Invariant of the outer loop: the lines emitted so far consume, group
    by group and in order, the first [i] words. *)
Definition outer_inv (font : Font) (max_width : Z) (words : list string)
           (s : Outer) : Prop :=
  (out_i s <= List.length words)%nat
  /\ exists groups : list (list string),
      List.concat groups = firstn (out_i s) words
      /\ Forall2 (emitted font max_width) groups (out_lines s).

Definition nonempty (w : string) : bool := negb (is_empty w).

(** The non-empty words of a string. *)
Definition tokens (s : string) : list string :=
  filter nonempty (split s).

Definition ends_with_space (s : string) : bool :=
  match get (String.length s - 1) s with
  | Some c => Ascii.eqb c " "%char
  | None => false
  end.

(** [sub in s] *)
Fixpoint is_substring (sub s : string) : bool :=
  prefix sub s
  || match s with
     | EmptyString => false
     | String _ s' => is_substring sub s'
     end.

End TextWrap.

(** ** [draw_border] *)

Module DrawBorder.

Definition default_radius : Z := 5.
Definition default_thickness : Z := 1.
Definition default_shrinkage : Q * Q := (1 # 10, 1 # 10)%Q.

(** The inset box: [int(size[0]*(1-shrinkage[0]))], likewise the height. *)
Definition shrunk (size : Z * Z) (shrinkage : Q * Q) : Z * Z :=
  (Py.int (inject_Z (fst size) * (1 - fst shrinkage))%Q,
   Py.int (inject_Z (snd size) * (1 - snd shrinkage))%Q).

(** The rest of the function runs when a call has returned; an exception
    is passed on. *)
Definition and_then {A B : Type} (r : outcome A) (k : A -> outcome B)
  : outcome B :=
  match r with
  | Returns a => k a
  | Raises e => Raises e
  end.

(** The function has no [raise] of its own; what can raise is [draw.arc]. *)
Definition draw_border (image : Image) (xy size : Z * Z)
           (radius thickness : Z) (shrinkage : Q * Q) : outcome Image :=
  let colour := "black" in
  let '(width, height) := shrunk size shrinkage in
  let offset_x := Py.int (inject_Z (fst size - width) / 2)%Q in
  let offset_y := Py.int (inject_Z (snd size - height) / 2)%Q in
  let x := fst xy + offset_x in
  let y := snd xy + offset_y in
  let diameter := radius * 2 in
  let a := width - diameter in
  let b := height - diameter in
  let p1 := (x + radius, y) in
  let p2 := (x + radius + a, y) in
  let p3 := (x + width, y + radius) in
  let p4 := (x + width, y + radius + b) in
  let p5 := (fst p2, y + height) in
  let p6 := (fst p1, y + height) in
  let p7 := (x, snd p4) in
  let p8 := (x, snd p3) in
  let image := Line image p1 p2 colour thickness in
  let image := Line image p3 p4 colour thickness in
  let image := Line image p5 p6 colour thickness in
  let image := Line image p7 p8 colour thickness in
  if negb (radius =? 0) then
    let c1 := (x, y) in
    let c2 := (x + diameter, y + diameter) in
    let c3 := ((x + width) - diameter, y) in
    let c4 := (x + width, y + diameter) in
    let c5 := ((x + width) - diameter, (y + height) - diameter) in
    let c6 := (x + width, y + height) in
    let c7 := (x, (y + height) - diameter) in
    let c8 := (x + diameter, y + height) in
    and_then (arc image c1 c2 180 270 colour thickness) (fun image =>
    and_then (arc image c3 c4 270 360 colour thickness) (fun image =>
    and_then (arc image c5 c6 0 90 colour thickness) (fun image =>
    arc image c7 c8 90 180 colour thickness)))
  else Returns image.

(** [radius*2] exceeds the width or the height of the inset box. *)
Definition degenerate (size : Z * Z) (radius : Z) (shrinkage : Q * Q)
  : bool :=
  let '(width, height) := shrunk size shrinkage in
  (width <? radius * 2) || (height <? radius * 2).

End DrawBorder.

(** ** The autofit algorithm in the words of the specification

    "if width < box.width * fill_width AND height < box.height * fill_height,
    increase size by one unit and re-measure; otherwise stop": the products
    are compared as they are. *)

Module SpecAutofit.
Import Write.

Definition Qltb (a b : Q) : bool := negb (Qle_bool b a).

Definition spec_fit_cond (box_size : Z * Z) (fill_width fill_height : Q)
           (s : FitState) : bool :=
  let '(box_width, box_height) := box_size in
  Qltb (inject_Z (fs_text_width s)) (inject_Z box_width * fill_width)
  && Qltb (inject_Z (fs_text_height s)) (inject_Z box_height * fill_height).

Definition spec_fit (fuel : nat) (box_size : Z * Z) (text : string)
           (font : Font) (autofit : bool) (fill_width fill_height : Q)
  : option Font :=
  if autofit_triggered autofit fill_width fill_height then
    match while fuel (spec_fit_cond box_size fill_width fill_height)
                (fit_body text) (fit_init font text) with
    | Some s => Some (fs_font s)
    | None => None
    end
  else Some font.

End SpecAutofit.

(** ** Fonts and inputs used to run the functions *)

Module Samples.
Import Write.

(** A monospaced face: at size [s] every character is [s] wide and the
    reference height is [2 * s]. *)
Definition mono : Z -> string -> Z * Z :=
  fun s text => (s * Z.of_nat (String.length text), 2 * s).

Definition mono10 : Font := truetype mono 10.

(** Every character one pixel wide. *)
Definition unit_font : Font := truetype mono 1.

Definition canvas : Image := New "RGB" (400, 300).

(** [rotation=90] *)
Definition rotate90 : Kwargs :=
  {| kw_alignment := None; kw_autofit := None; kw_colour := None;
     kw_rotation := Some 90%Q; kw_fill_width := None;
     kw_fill_height := None; kw_others := [] |}.

(** [alignment=None] *)
Definition align_None : Kwargs :=
  {| kw_alignment := Some PyNone; kw_autofit := None; kw_colour := None;
     kw_rotation := None; kw_fill_width := None; kw_fill_height := None;
     kw_others := [] |}.

(** [alignment='justify'] *)
Definition align_justify : Kwargs :=
  {| kw_alignment := Some (PyStr "justify"); kw_autofit := None;
     kw_colour := None; kw_rotation := None; kw_fill_width := None;
     kw_fill_height := None; kw_others := [] |}.

End Samples.

Import Write TextWrap DrawBorder SpecAutofit Samples.

(** ** The output of [text_wrap] as a whole *)

Module Wrapping.

(** [lines] is a greedy wrapping of [words]: a word goes alone on a line
    when it does not fit by itself; otherwise a line takes a non-empty run
    of words that fits without its last space, and is closed only when no
    word is left or when the next word would not fit after it. *)
Inductive wrapped (font : Font) (max_width : Z)
  : list string -> list string -> Prop :=
| wrapped_done : wrapped font max_width [] []
| wrapped_forced (w : string) (rest lines : list string) :
    max_width < width font w ->
    wrapped font max_width rest lines ->
    wrapped font max_width (w :: rest) (w :: lines)
| wrapped_line (g rest lines : list string) :
    g <> [] ->
    width font (drop_last (greedy g)) <= max_width ->
    (rest = [] \/ max_width < width font (greedy g ++ hd "" rest)) ->
    wrapped font max_width rest lines ->
    wrapped font max_width (g ++ rest) (greedy g :: lines).

(** Invariant of the outer loop: whatever wraps the words still to come,
    put after the lines emitted so far, wraps all the words. *)
Definition wrapped_inv (font : Font) (max_width : Z) (words : list string)
           (s : Outer) : Prop :=
  (out_i s <= List.length words)%nat
  /\ forall lines,
      wrapped font max_width (skipn (out_i s) words) lines ->
      wrapped font max_width words (out_lines s ++ lines).

(** A line with the space after its last word, if it lacks one. *)
Definition spaced (line : string) : string :=
  if ends_with_space line then line else (line ++ " ")%string.

(** [''.join(lines)] *)
Fixpoint concat_lines (lines : list string) : string :=
  match lines with
  | [] => ""
  | l :: rest => (l ++ concat_lines rest)%string
  end.

End Wrapping.

(** ** The geometry of [draw_border] *)

Module Geometry.

(** The points passed to [draw.line] and [draw.arc] on an image. *)
Fixpoint points_drawn (im : Image) : list (Z * Z) :=
  match im with
  | Line im p q _ _ => p :: q :: points_drawn im
  | Arc im c1 c2 _ _ _ _ => c1 :: c2 :: points_drawn im
  | _ => []
  end.

(** A point of the box of the given size at [xy], borders included. *)
Definition inside (xy size p : Z * Z) : Prop :=
  fst xy <= fst p <= fst xy + fst size
  /\ snd xy <= snd p <= snd xy + snd size.

(** Where an arc in the bounding box [(c1, c2)] is at a multiple of 90
    degrees: PIL measures angles from 3 o'clock, increasing clockwise, so 0
    is the middle of the right side, 90 of the bottom, 180 of the left and
    270 of the top.  There is no arc in a box whose second corner lies left
    of or above the first. *)
Definition arc_point (c1 c2 : Z * Z) (angle : Z) : option (Z * Z) :=
  let cx := (fst c1 + fst c2) / 2 in
  let cy := (snd c1 + snd c2) / 2 in
  if (fst c2 <? fst c1) || (snd c2 <? snd c1) then None
  else if (angle =? 0) || (angle =? 360) then Some (fst c2, cy)
  else if angle =? 90 then Some (cx, snd c2)
  else if angle =? 180 then Some (fst c1, cy)
  else if angle =? 270 then Some (cx, snd c1)
  else None.

End Geometry.

(** ** The slideshow module

    [inkycal_slideshow.py].  The base class [inkycal_module], the image
    class [Inkyimage], the constant [IMAGE_DIR] and the directory listing
    are not part of these sources: the first, the constant and the listing
    are parameters ([Env]); an [Inkyimage] is the history of the calls made
    on it.  Of what the module prints and logs, the line naming the current
    image is kept. *)

Module Slideshow.

(** A value of the configuration. *)
#[warnings="-register-all"]
Inductive cval : Type :=
| CStr (s : string)
| CBool (b : bool)
| CNum (n : Z)
| CDict (d : list (string * cval)).

Definition Dict : Type := list (string * cval).

(** [d.get(key)]: [None] when [key not in d]. *)
Fixpoint lookup (key : string) (d : Dict) : option cval :=
  match d with
  | [] => None
  | (k, v) :: d' => if String.eqb k key then Some v else lookup key d'
  end.

(** [v == True] *)
Definition eq_True (v : cval) : bool :=
  match v with
  | CBool b => b
  | CNum n => n =? 1
  | _ => false
  end.

(** [s.split(sep)] for a separator of one character. *)
Fixpoint split_on (sep : ascii) (s : string) : list string :=
  match s with
  | EmptyString => [EmptyString]
  | String c s' =>
      if Ascii.eqb c sep then EmptyString :: split_on sep s'
      else match split_on sep s' with
           | w :: ws => String c w :: ws
           | [] => [String c EmptyString]
           end
  end.

(** What [inkycal_module.__init__] leaves in [self] for this module. *)
Record Template : Type := {
  tm_width : Z;
  tm_height : Z;
  tm_padding_left : Z;
  tm_padding_top : Z
}.

Record Env : Type := {
  template_init : Dict -> outcome Template;
  IMAGE_DIR : string;
  listdir : string -> outcome (list string)
}.

(** The calls made on an [Inkyimage]. *)
Inductive Inkyimage : Type :=
| Images
| load (im : Inkyimage) (path : string)
| remove_alpha (im : Inkyimage)
| autoflip (im : Inkyimage) (orientation : cval)
| resize (im : Inkyimage) (width height : Z)
| clear (im : Inkyimage).

(** The pair returned by [im.to_palette(palette)]. *)
Record Palettes : Type := to_palette {
  pal_im : Inkyimage;
  pal_palette : cval
}.

(** The attributes of a [Slideshow] object. *)
Record Slideshow : Type := {
  self_width : Z;
  self_height : Z;
  self_padding_left : Z;
  self_padding_top : Z;
  self_palette : cval;
  self_autoflip : cval;
  self_orientation : cval;
  self_images : list string;
  self_first_run : bool
}.

Definition requires : list string := ["palette"].

(** The first required parameter that is missing from a dictionary. *)
Fixpoint missing (params : list string) (config : Dict) : option string :=
  match params with
  | [] => None
  | param :: rest =>
      match lookup param config with
      | None => Some param
      | Some _ => missing rest config
      end
  end.

(** [config[key]] on a dictionary. *)
Definition getitem (config : Dict) (key : string) : outcome cval :=
  match lookup key config with
  | Some v => Returns v
  | None => Raises ("KeyError: " ++ key)
  end.

Definition bind {A B : Type} (m : outcome A) (f : A -> outcome B)
  : outcome B :=
  match m with
  | Returns a => f a
  | Raises e => Raises e
  end.

Notation "x <- m ;; k" := (bind m (fun x => k))
  (at level 61, m at next level, right associativity).

(** [Slideshow.__init__], once [config['config']] is a dictionary. *)
Definition init_dict (env : Env) (tm : Template) (config : Dict)
  : outcome Slideshow :=
  match missing requires config with
  | Some param => Raises ("Exception: config is missing " ++ param)
  | None =>
      palette <- getitem config "palette" ;;
      autoflip <- getitem config "autoflip" ;;
      orientation <- getitem config "orientation" ;;
      names <- listdir env (IMAGE_DIR env) ;;
      let images := map (fun im => (IMAGE_DIR env ++ im)%string) names in
      match images with
      | [] =>
          Raises "FileNotFoundError: No images found in the given folder path :/"
      | _ :: _ =>
          Returns {| self_width := tm_width tm;
                     self_height := tm_height tm;
                     self_padding_left := tm_padding_left tm;
                     self_padding_top := tm_padding_top tm;
                     self_palette := palette;
                     self_autoflip := autoflip;
                     self_orientation := orientation;
                     self_images := images;
                     self_first_run := true |}
      end
  end.

(** [Slideshow.__init__].  When [config['config']] is a string, [in] is the
    substring test and indexing by a key is a type error; on a boolean or a
    number [in] itself is a type error. *)
Definition init (env : Env) (config : Dict) : outcome Slideshow :=
  tm <- template_init env config ;;
  inner <- getitem config "config" ;;
  match inner with
  | CDict config => init_dict env tm config
  | CStr s =>
      if is_substring "palette" s
      then Raises "TypeError: string indices must be integers"
      else Raises "Exception: config is missing palette"
  | CBool _ | CNum _ => Raises "TypeError: argument is not iterable"
  end.

(** The nested [rotate]: [somelist[1:] + somelist[:1]]. *)
Definition rotate {A : Type} (somelist : list A) : list A :=
  skipn 1 somelist ++ firstn 1 somelist.

(** What a call of [generate_image] prints and returns, and the local image
    as the call leaves it. *)
Record Shown : Type := {
  printed : string;
  returned : Palettes;
  left_behind : Inkyimage
}.

Definition generate_image (self : Slideshow) : outcome (Slideshow * Shown) :=
  let im_width := self_width self - 2 * self_padding_left self in
  let im_height := self_height self - 2 * self_padding_top self in
  let images :=
    if Bool.eqb (self_first_run self) true then self_images self
    else rotate (self_images self) in
  let self :=
    {| self_width := self_width self;
       self_height := self_height self;
       self_padding_left := self_padding_left self;
       self_padding_top := self_padding_top self;
       self_palette := self_palette self;
       self_autoflip := self_autoflip self;
       self_orientation := self_orientation self;
       self_images := images;
       self_first_run := false |} in
  let im := Images in
  match self_images self with
  | [] => Raises "IndexError: list index out of range"
  | first :: _ =>
      let name := last (split_on "/" first) "" in
      let im := load im first in
      let im := remove_alpha im in
      let im := if eq_True (self_autoflip self)
                then autoflip im (self_orientation self) else im in
      let im := resize im im_width im_height in
      let palettes := to_palette im (self_palette self) in
      let im := clear im in
      Returns (self,
               {| printed := ("slideshow - current image name: " ++ name)%string;
                  returned := palettes;
                  left_behind := im |})
  end.

(** [n] calls of [generate_image], one after the other. *)
Fixpoint generate_images (n : nat) (self : Slideshow)
  : outcome (Slideshow * list Shown) :=
  match n with
  | O => Returns (self, [])
  | S k =>
      r <- generate_image self ;;
      rs <- generate_images k (fst r) ;;
      Returns (fst rs, snd r :: snd rs)
  end.

(** The file that was loaded into an image. *)
Fixpoint loaded (im : Inkyimage) : option string :=
  match im with
  | Images => None
  | load _ path => Some path
  | remove_alpha im => loaded im
  | autoflip im _ => loaded im
  | resize im _ _ => loaded im
  | clear im => loaded im
  end.

Definition shown_path (s : Shown) : option string :=
  loaded (pal_im (returned s)).

(** A directory with three pictures, and a configuration for it. *)
Definition sample_env : Env :=
  {| template_init :=
       fun _ => Returns {| tm_width := 400; tm_height := 300;
                           tm_padding_left := 10; tm_padding_top := 5 |};
     IMAGE_DIR := "/img/";
     listdir := fun _ => Returns ["a.png"; "b.png"; "c.png"] |}.

Definition sample_inner : Dict :=
  [("palette", CStr "bw"); ("autoflip", CBool false);
   ("orientation", CStr "vertical")].

Definition sample_config : Dict := [("config", CDict sample_inner)].

Definition sample_slideshow : Slideshow :=
  {| self_width := 400; self_height := 300;
     self_padding_left := 10; self_padding_top := 5;
     self_palette := CStr "bw"; self_autoflip := CBool false;
     self_orientation := CStr "vertical";
     self_images := ["/img/a.png"; "/img/b.png"; "/img/c.png"];
     self_first_run := true |}.

End Slideshow.

Import Wrapping Geometry.

(** * Properties *)

(** ** Facts about the Python primitives *)

Module PyFacts.

Lemma tuple_gt_spec (a b c d : Z) :
  tuple_gt (a, b) (c, d) = true <-> c < a \/ (a = c /\ d < b).
Proof.
  unfold tuple_gt.
  destruct (Z.eqb_spec a c) as [-> | Hac]; simpl.
  - destruct (Z.eqb_spec b d) as [-> | Hbd]; simpl.
    + split; [discriminate | lia].
    + rewrite Z.gtb_ltb, Z.ltb_lt. lia.
  - rewrite Z.gtb_ltb, Z.ltb_lt. lia.
Qed.

Lemma tuple_gt_false (a b c d : Z) :
  tuple_gt (a, b) (c, d) = false <-> a < c \/ (a = c /\ b <= d).
Proof.
  destruct (tuple_gt (a, b) (c, d)) eqn:E.
  - apply tuple_gt_spec in E. split; [discriminate | lia].
  - split; [intros _ | reflexivity].
    assert (H : ~ (c < a \/ (a = c /\ d < b))).
    { intros H. apply tuple_gt_spec in H. congruence. }
    lia.
Qed.

(** [int] of an integer-valued product. *)
Lemma int_mul (n : Z) (q : Q) :
  Py.int (inject_Z n * q) = (n * Qnum q) ÷ Zpos (Qden q).
Proof. reflexivity. Qed.

Lemma int_inject (n : Z) : Py.int (inject_Z n) = n.
Proof. unfold Py.int; simpl. apply Z.quot_1_r. Qed.

Lemma int_mul_mono (n m : Z) (q : Q) :
  (0 <= q)%Q -> n <= m ->
  Py.int (inject_Z n * q) <= Py.int (inject_Z m * q).
Proof.
  intros Hq Hnm. rewrite !int_mul.
  apply Z.quot_le_mono; [reflexivity |].
  unfold Qle in Hq; simpl in Hq. nia.
Qed.

(** [int(a / 2 - b / 2)] is the half difference, rounded toward zero. *)
Lemma int_half_diff (a b : Z) :
  Py.int (inject_Z a / 2 - inject_Z b / 2) = (a - b) ÷ 2.
Proof.
  unfold Py.int; simpl.
  replace (a * 1 * 2 + - (b * 1) * 2) with (2 * (a - b)) by ring.
  change 4 with (2 * 2).
  apply Z.quot_mul_cancel_l; discriminate.
Qed.

(** *** Slicing *)

Lemma substring_0_length (n : nat) (s : string) :
  String.length (substring 0 n s) = Nat.min n (String.length s).
Proof.
  revert s; induction n as [| n IH]; intros [| c s]; simpl; auto.
Qed.

Lemma substring_0_prefix (n : nat) (s : string) :
  prefix (substring 0 n s) s = true.
Proof.
  revert s; induction n as [| n IH]; intros [| c s]; simpl; auto.
  destruct (ascii_dec c c); [apply IH | congruence].
Qed.

Lemma prefix_refl (s : string) : prefix s s = true.
Proof.
  induction s as [| c s IH]; simpl; auto.
  destruct (ascii_dec c c); [exact IH | congruence].
Qed.

Lemma prefix_trans (a b c : string) :
  prefix a b = true -> prefix b c = true -> prefix a c = true.
Proof.
  revert b c; induction a as [| x a IH]; intros [| y b] [| z c]; simpl;
    auto; try discriminate.
  destruct (ascii_dec x y) as [-> | ]; [| discriminate].
  destruct (ascii_dec y z) as [-> | ]; [| discriminate].
  apply IH.
Qed.

Lemma drop_last_prefix (s : string) : prefix (drop_last s) s = true.
Proof. apply substring_0_prefix. Qed.

Lemma drop_last_length (s : string) :
  String.length (drop_last s) = (String.length s - 1)%nat.
Proof. unfold drop_last. rewrite substring_0_length. lia. Qed.

Lemma length_0_empty (s : string) : String.length s = O -> s = "".
Proof. destruct s; [reflexivity | discriminate]. Qed.

(** *** Loops *)

Section While.
Context {S : Type}.
Variable cond : S -> bool.
Variable body : S -> option S.

Lemma while_mono (n m : nat) (s r : S) :
  while n cond body s = Some r -> (n <= m)%nat ->
  while m cond body s = Some r.
Proof.
  revert m s; induction n as [| n IH]; intros m s H Hle; simpl in H.
  - destruct m; simpl; destruct (cond s); congruence.
  - destruct m as [| m]; [lia |]. simpl.
    destruct (cond s); [| exact H].
    destruct (body s) as [s' |]; [| discriminate].
    apply IH; [exact H | lia].
Qed.

Lemma while_deterministic (n m : nat) (s r r' : S) :
  while n cond body s = Some r -> while m cond body s = Some r' ->
  r = r'.
Proof.
  intros H H'.
  apply while_mono with (m := Nat.max n m) in H; [| lia].
  apply while_mono with (m := Nat.max n m) in H'; [| lia].
  congruence.
Qed.

(** An invariant of the body holds when the loop exits, where the
    condition is false. *)
Lemma while_inv (P : S -> Prop) :
  (forall s s', P s -> cond s = true -> body s = Some s' -> P s') ->
  forall fuel s r,
    P s -> while fuel cond body s = Some r -> P r /\ cond r = false.
Proof.
  intros Hstep; induction fuel as [| n IH]; intros s r HP H; simpl in H.
  - destruct (cond s) eqn:E; [discriminate |].
    injection H as <-. auto.
  - destruct (cond s) eqn:E.
    + destruct (body s) as [s' |] eqn:B; [| discriminate].
      eapply IH; [| exact H]. eauto.
    + injection H as <-. auto.
Qed.

(** A measure that the body decreases bounds the number of rounds. *)
Lemma while_terminates (P : S -> Prop) (mu : S -> nat) :
  (forall s, P s -> cond s = true ->
             exists s', body s = Some s' /\ P s' /\ (mu s' < mu s)%nat) ->
  forall fuel s, P s -> (mu s <= fuel)%nat ->
                 exists r, while fuel cond body s = Some r.
Proof.
  intros Hstep; induction fuel as [| n IH]; intros s HP Hmu; simpl.
  - destruct (cond s) eqn:E; [| eauto].
    destruct (Hstep s HP E) as (s' & _ & _ & Hlt). lia.
  - destruct (cond s) eqn:E; [| eauto].
    destruct (Hstep s HP E) as (s' & -> & HP' & Hlt).
    apply IH; [exact HP' | lia].
Qed.

(** A set of states closed under the body, on which the condition holds,
    is never left. *)
Lemma while_diverges (P : S -> Prop) :
  (forall s, P s -> cond s = true /\ exists s', body s = Some s' /\ P s') ->
  forall fuel s, P s -> while fuel cond body s = None.
Proof.
  intros Hstep; induction fuel as [| n IH]; intros s HP; simpl;
    destruct (Hstep s HP) as (-> & s' & B & HP'); [reflexivity |].
  rewrite B. now apply IH.
Qed.

(** Along a run [sigma] of the body, the loop stops at the first state
    where the condition is false. *)
Lemma while_first (sigma : nat -> S) :
  (forall n, body (sigma n) = Some (sigma (Datatypes.S n))) ->
  forall fuel k r,
    while fuel cond body (sigma k) = Some r <->
    exists j, (j <= fuel)%nat /\ r = sigma (k + j)%nat
              /\ cond (sigma (k + j)%nat) = false
              /\ forall i, (i < j)%nat -> cond (sigma (k + i)%nat) = true.
Proof.
  intros Hrun; induction fuel as [| n IH]; intros k r; simpl.
  - destruct (cond (sigma k)) eqn:E.
    + split; [discriminate |].
      intros (j & Hj & _ & Hc & _).
      assert (j = O) by lia; subst j.
      rewrite Nat.add_0_r in Hc. congruence.
    + split.
      * intros [= <-]. exists O. rewrite Nat.add_0_r.
        repeat split; auto. intros i Hi; lia.
      * intros (j & Hj & -> & _ & _).
        assert (j = O) by lia; subst j. now rewrite Nat.add_0_r.
  - destruct (cond (sigma k)) eqn:E.
    + rewrite Hrun, IH. split.
      * intros (j & Hj & -> & Hc & Hall).
        exists (Datatypes.S j).
        replace (k + Datatypes.S j)%nat with (Datatypes.S k + j)%nat by lia.
        repeat split; auto; [lia |].
        intros [| i] Hi; [now rewrite Nat.add_0_r |].
        replace (k + Datatypes.S i)%nat with (Datatypes.S k + i)%nat by lia.
        apply Hall; lia.
      * intros (j & Hj & -> & Hc & Hall).
        destruct j as [| j].
        { rewrite Nat.add_0_r in Hc. congruence. }
        exists j.
        replace (Datatypes.S k + j)%nat with (k + Datatypes.S j)%nat by lia.
        repeat split; auto; [lia |].
        intros i Hi.
        replace (Datatypes.S k + i)%nat with (k + Datatypes.S i)%nat by lia.
        apply Hall; lia.
    + split.
      * intros [= <-]. exists O. rewrite Nat.add_0_r.
        repeat split; auto; [lia |]. intros i Hi; lia.
      * intros (j & Hj & -> & _ & Hall).
        destruct j as [| j]; [now rewrite Nat.add_0_r |].
        specialize (Hall O ltac:(lia)).
        rewrite Nat.add_0_r in Hall. congruence.
Qed.
End While.

End PyFacts.

(** ** Facts about [write] *)

Module WriteFacts.
Import PyFacts.

(** *** The autofit block *)

Lemma autofit_triggered_iff (autofit : bool) (fill_width fill_height : Q) :
  autofit_triggered autofit fill_width fill_height = true <->
  autofit = true \/ ~ (fill_width == 1)%Q \/ ~ (fill_height == 8 # 10)%Q.
Proof.
  unfold autofit_triggered.
  rewrite !orb_true_iff, !negb_true_iff, eqb_true_iff.
  rewrite <- !not_true_iff_false, !Qeq_bool_iff. tauto.
Qed.

Lemma fit_init_run (font : Font) (text : string) :
  fit_init font text = fit_run font text 0.
Proof. reflexivity. Qed.

Lemma fit_body_run (font : Font) (text : string) (k : nat) :
  fit_body text (fit_run font text k) = Some (fit_run font text (S k)).
Proof.
  unfold fit_body, fit_run, measure, getsize.
  cbv [fs_size fs_font path size fst snd].
  replace (8 + Z.of_nat k + 1) with (8 + Z.of_nat (S k)) by lia.
  reflexivity.
Qed.

Lemma fit_cond_run (font : Font) (text : string) (box_size : Z * Z)
      (fill_width fill_height : Q) (k : nat) :
  fit_cond box_size fill_width fill_height (fit_run font text k)
  = grows font text box_size fill_width fill_height (8 + Z.of_nat k).
Proof. destruct box_size; reflexivity. Qed.

(** The loop stops at [r] exactly when [r] is the first state of the run
    at which the condition fails. *)
Lemma fit_loop_first (fuel : nat) (font : Font) (text : string)
      (box_size : Z * Z) (fill_width fill_height : Q) (r : FitState) :
  while fuel (fit_cond box_size fill_width fill_height) (fit_body text)
        (fit_init font text) = Some r <->
  exists j, (j <= fuel)%nat /\ r = fit_run font text j
            /\ grows font text box_size fill_width fill_height
                     (8 + Z.of_nat j) = false
            /\ forall i, (i < j)%nat ->
                         grows font text box_size fill_width fill_height
                               (8 + Z.of_nat i) = true.
Proof.
  rewrite fit_init_run.
  rewrite (while_first _ _ (fit_run font text) (fit_body_run font text)).
  simpl Nat.add.
  split; intros (j & Hj & Hr & Hc & Hall); exists j;
    repeat split; auto.
  - now rewrite <- fit_cond_run.
  - intros i Hi. rewrite <- fit_cond_run. auto.
  - now rewrite fit_cond_run.
  - intros i Hi. rewrite fit_cond_run. auto.
Qed.

(** Below a size where the condition fails there is a first such size. *)
Lemma first_false (c : nat -> bool) (n : nat) :
  c n = false ->
  exists j, (j <= n)%nat /\ c j = false
            /\ forall i, (i < j)%nat -> c i = true.
Proof.
  induction n as [n IH] using lt_wf_ind; intros Hn.
  destruct (forallb c (seq 0 n)) eqn:E.
  - exists n. repeat split; auto.
    intros i Hi. rewrite forallb_forall in E. apply E.
    apply in_seq; lia.
  - assert (exists m, (m < n)%nat /\ c m = false) as (m & Hm & Hc).
    { clear IH Hn. induction n as [| n IHn]; [discriminate |].
      rewrite seq_S, forallb_app in E; simpl in E.
      destruct (forallb c (seq 0 n)).
      - exists n. split; [lia |].
        destruct (c n); [discriminate | reflexivity].
      - destruct IHn as (m & Hm & Hc); [reflexivity |].
        exists m; split; [lia | exact Hc]. }
    destruct (IH m Hm Hc) as (j & Hj & Hcj & Hall).
    exists j. repeat split; auto. lia.
Qed.

(** A larger box only raises the two thresholds. *)
Lemma grows_mono (font : Font) (text : string) (bw bh bw' bh' : Z)
      (fill_width fill_height : Q) (s : Z) :
  (0 <= fill_width)%Q -> (0 <= fill_height)%Q ->
  bw <= bw' -> bh <= bh' ->
  grows font text (bw, bh) fill_width fill_height s = true ->
  grows font text (bw', bh') fill_width fill_height s = true.
Proof.
  intros Hw Hh Hbw Hbh. unfold grows; simpl fst; simpl snd.
  rewrite !andb_true_iff, !Z.ltb_lt.
  pose proof (int_mul_mono bw bw' fill_width Hw Hbw).
  pose proof (int_mul_mono bh bh' fill_height Hh Hbh).
  lia.
Qed.

Lemma fit_terminates_iff (box_size : Z * Z) (text : string) (font : Font)
      (autofit : bool) (fill_width fill_height : Q) :
  autofit_triggered autofit fill_width fill_height = true ->
  (exists fuel f,
      fit fuel box_size text font autofit fill_width fill_height = Some f)
  <-> exists s, 8 <= s
                /\ grows font text box_size fill_width fill_height s = false.
Proof.
  intros Ht. unfold fit. rewrite Ht. split.
  - intros (fuel & f & H).
    destruct (while _ _ _ _) as [r |] eqn:W; [| discriminate].
    apply fit_loop_first in W as (j & _ & _ & Hc & _).
    exists (8 + Z.of_nat j). split; [lia | exact Hc].
  - intros (s & Hs & Hc).
    destruct (first_false
                (fun i => grows font text box_size fill_width fill_height
                                (8 + Z.of_nat i))
                (Z.to_nat (s - 8))) as (j & Hj & Hcj & Hall).
    { replace (8 + Z.of_nat (Z.to_nat (s - 8))) with s by lia. exact Hc. }
    exists j, (fs_font (fit_run font text j)).
    assert (W : while j (fit_cond box_size fill_width fill_height)
                      (fit_body text) (fit_init font text)
                = Some (fit_run font text j)).
    { apply fit_loop_first. exists j. repeat split; auto. }
    now rewrite W.
Qed.

(** *** The truncation block *)

Lemma truncate_while (fuel : nat) (box_size : Z * Z) (font : Font)
      (text : string) :
  truncate fuel box_size font text
  = while fuel (trunc_cond box_size) (trunc_body font)
          (trunc_init font text).
Proof.
  unfold truncate.
  destruct (trunc_cond box_size (trunc_init font text)) eqn:E;
    [reflexivity |].
  destruct fuel; simpl; now rewrite E.
Qed.

Lemma trunc_body_run (font : Font) (text : string) (n : nat) :
  trunc_body font (trunc_run font text n) = Some (trunc_run font text (S n)).
Proof. reflexivity. Qed.

Lemma trunc_cond_run (font : Font) (box_size : Z * Z) (text : string)
      (n : nat) :
  trunc_cond box_size (trunc_run font text n)
  = negb (fits font box_size (dropped n text)).
Proof. unfold fits. now rewrite negb_involutive. Qed.

Lemma dropped_prefix (n : nat) (text : string) :
  prefix (dropped n text) text = true.
Proof.
  induction n as [| n IH]; simpl; [apply prefix_refl |].
  eapply prefix_trans; [apply drop_last_prefix | exact IH].
Qed.

Lemma dropped_length (n : nat) (text : string) :
  String.length (dropped n text) = (String.length text - n)%nat.
Proof.
  induction n as [| n IH]; simpl; [lia |].
  fold (dropped n text). rewrite drop_last_length, IH. lia.
Qed.

Lemma dropped_all (n : nat) (text : string) :
  (String.length text <= n)%nat -> dropped n text = "".
Proof.
  intros H. apply length_0_empty. rewrite dropped_length. lia.
Qed.

(** Truncation stops at the first prefix that the tuple comparison
    accepts. *)
Lemma truncate_first (fuel : nat) (box_size : Z * Z) (font : Font)
      (text : string) (t : TruncState) :
  truncate fuel box_size font text = Some t <->
  exists j, (j <= fuel)%nat /\ t = trunc_run font text j
            /\ fits font box_size (dropped j text) = true
            /\ forall i, (i < j)%nat ->
                         fits font box_size (dropped i text) = false.
Proof.
  rewrite truncate_while.
  change (trunc_init font text) with (trunc_run font text 0).
  rewrite (while_first _ _ (trunc_run font text) (trunc_body_run font text)).
  simpl Nat.add.
  split; intros (j & Hj & Hr & Hc & Hall); exists j; repeat split; auto.
  - rewrite trunc_cond_run in Hc. now apply negb_false_iff in Hc.
  - intros i Hi. specialize (Hall i Hi). rewrite trunc_cond_run in Hall.
    now apply negb_true_iff in Hall.
  - rewrite trunc_cond_run, Hc. reflexivity.
  - intros i Hi. rewrite trunc_cond_run, (Hall i Hi). reflexivity.
Qed.

Lemma truncate_terminates (box_size : Z * Z) (font : Font) (text : string)
      (fuel : nat) :
  fits font box_size "" = true -> (String.length text <= fuel)%nat ->
  exists t, truncate fuel box_size font text = Some t.
Proof.
  intros He Hfuel.
  destruct (first_false (fun i => negb (fits font box_size (dropped i text)))
                        (String.length text)) as (j & Hj & Hcj & Hall).
  { rewrite dropped_all by lia. now rewrite He. }
  exists (trunc_run font text j). apply truncate_first.
  exists j. repeat split; [lia | | ].
  - now apply negb_false_iff in Hcj.
  - intros i Hi. specialize (Hall i Hi). now apply negb_true_iff in Hall.
Qed.

Lemma truncate_prefix (fuel : nat) (box_size : Z * Z) (font : Font)
      (text : string) (t : TruncState) :
  truncate fuel box_size font text = Some t ->
  prefix (ts_text t) text = true
  /\ (String.length (ts_text t) <= String.length text)%nat.
Proof.
  intros H. apply truncate_first in H as (j & _ & -> & _ & _).
  unfold trunc_run, trunc_init; simpl ts_text. split.
  - apply dropped_prefix.
  - rewrite dropped_length. lia.
Qed.

(** What the loop establishes: the measurement of the remaining text is
    not greater than the box in the order on tuples. *)
Lemma truncate_fits (fuel : nat) (bw bh : Z) (font : Font)
      (text : string) (t : TruncState) :
  truncate fuel (bw, bh) font text = Some t ->
  (ts_text_width t, ts_text_height t) = measure font (ts_text t)
  /\ ts_text_width t <= bw
  /\ (ts_text_width t = bw -> ts_text_height t <= bh).
Proof.
  intros H. apply truncate_first in H as (j & _ & -> & Hc & _).
  unfold fits in Hc. apply negb_true_iff in Hc.
  unfold trunc_run, trunc_init, measure in *; simpl.
  apply tuple_gt_false in Hc. split; [reflexivity | lia].
Qed.

(** *** The whole function *)

Lemma write_inv (fuel : nat) (image : Image) (xy box_size : Z * Z)
      (text : string) (font : Font) (kwargs : Kwargs) (l : Locals) :
  write fuel image xy box_size text font kwargs = Some l ->
  exists t,
    fit fuel box_size text font (default (kw_autofit kwargs) false)
        (default (kw_fill_width kwargs) 1%Q)
        (default (kw_fill_height kwargs) (8 # 10)%Q) = Some (w_font l)
    /\ truncate fuel box_size (w_font l) text = Some t
    /\ w_text l = ts_text t
    /\ w_text_width l = ts_text_width t
    /\ w_text_height l = ts_text_height t
    /\ (w_x l, w_y l)
       = align (default (kw_alignment kwargs) (PyStr "center")) xy box_size
               (ts_text_width t) (ts_text_height t)
    /\ w_space l
       = Text (New "RGBA" box_size) "1" (w_x l, w_y l) (w_text l)
              (default (kw_colour kwargs) "black") (w_font l)
    /\ w_image l = Paste image (w_space l) xy (w_space l).
Proof.
  unfold write. intros H.
  destruct (fit _ _ _ _ _ _ _) as [f |]; [| discriminate].
  destruct (truncate _ _ _ _) as [t |] eqn:T; [| discriminate].
  destruct (align _ _ _ _ _) as [x y] eqn:A.
  injection H as <-. simpl. exists t. now rewrite A.
Qed.

Lemma write_returns (fuel : nat) (image : Image) (xy box_size : Z * Z)
      (text : string) (font f : Font) (kwargs : Kwargs) :
  fit fuel box_size text font (default (kw_autofit kwargs) false)
      (default (kw_fill_width kwargs) 1%Q)
      (default (kw_fill_height kwargs) (8 # 10)%Q) = Some f ->
  fits f box_size "" = true -> (String.length text <= fuel)%nat ->
  exists l, write fuel image xy box_size text font kwargs = Some l.
Proof.
  intros Hf He Hfuel. unfold write. rewrite Hf.
  destruct (truncate_terminates box_size f text fuel He Hfuel) as (t & ->).
  destruct (align _ _ _ _ _) as [x y]. eauto.
Qed.

End WriteFacts.

(** ** Theorems about [write] *)

Module WriteTheorems.
Import PyFacts WriteFacts.

(** *** Alignment *)

Lemma align_center (xy : Z * Z) (bw bh tw th : Z) :
  align (PyStr "center") xy (bw, bh) tw th = ((bw - tw) ÷ 2, (bh - th) ÷ 2).
Proof.
  destruct xy as [x y]. unfold align, center_or_None; simpl value_eqb.
  cbv iota. now rewrite !int_half_diff.
Qed.

Lemma align_left (xy : Z * Z) (bw bh tw th : Z) :
  align (PyStr "left") xy (bw, bh) tw th = (0, (bh - th) ÷ 2).
Proof.
  destruct xy as [x y]. unfold align, center_or_None; simpl value_eqb.
  cbv iota. now rewrite !int_half_diff.
Qed.

Lemma align_right (xy : Z * Z) (bw bh tw th : Z) :
  align (PyStr "right") xy (bw, bh) tw th = (bw - tw, (bh - th) ÷ 2).
Proof.
  destruct xy as [x y]. unfold align, center_or_None; simpl value_eqb.
  cbv iota. now rewrite int_half_diff, int_inject.
Qed.

(** No branch of the chain is taken for any other value: the horizontal
    offset is the [x] unpacked from [xy]. *)
Lemma align_other (a : value) (x y bw bh tw th : Z) :
  a <> PyStr "center" -> a <> PyStr "left" -> a <> PyStr "right" ->
  align a (x, y) (bw, bh) tw th = (x, (bh - th) ÷ 2).
Proof.
  intros Hc Hl Hr. unfold align, center_or_None.
  assert (E : forall s, a <> PyStr s -> value_eqb a (PyStr s) = false).
  { intros s Hs. destruct a as [| t]; simpl; [reflexivity |].
    apply String.eqb_neq. congruence. }
  rewrite !E by assumption. now rewrite int_half_diff.
Qed.

(** The scratch layer is pasted as it was drawn. *)
Lemma write_pastes_scratch (fuel : nat) (image : Image) (xy box_size : Z * Z)
      (text : string) (font : Font) (kwargs : Kwargs) (l : Locals) :
  write fuel image xy box_size text font kwargs = Some l ->
  w_image l = Paste image (w_space l) xy (w_space l)
  /\ rotated (w_space l) = false.
Proof.
  intros H. apply write_inv in H as (t & _ & _ & _ & _ & _ & _ & Hs & Hi).
  split; [exact Hi | now rewrite Hs].
Qed.

(** C1. In [write] a text narrower than the box is never truncated, however
    tall the font: for the text "a" measuring 10 x 20 in a 20 x 10 box the
    comparison of tuples is false, no character is dropped, and the text
    that is drawn has a reference height of 20, above the box height 10. *)
Theorem truncation_ignores_height :
  forall fuel,
  exists l,
    write fuel canvas (7, 3) (20, 10) "a" mono10 no_kwargs = Some l
    /\ tuple_gt (measure mono10 "a") (20, 10) = false
    /\ w_text l = "a"
    /\ w_text_width l = 10
    /\ w_text_height l = 20
    /\ 10 < w_text_height l.
Proof.
  intros fuel. eexists. split; [reflexivity |].
  repeat split; reflexivity.
Qed.

(** C2. With [rotation=90] the image that [write] pastes onto the canvas is
    the scratch layer as drawn, with no rotation in its history; it is not
    the rotated layer. *)
Theorem rotation_is_discarded :
  forall fuel,
  exists l,
    write fuel canvas (7, 3) (100, 40) "Hi" mono10 rotate90 = Some l
    /\ w_image l = Paste canvas (w_space l) (7, 3) (w_space l)
    /\ rotated (w_image l) = false
    /\ w_image l
       <> Paste canvas (Rotate (w_space l) 90%Q true) (7, 3)
                (Rotate (w_space l) 90%Q true).
Proof.
  intros fuel. eexists. split; [reflexivity |].
  repeat split; try reflexivity.
  simpl. intros H. discriminate H.
Qed.

(** C3. With [alignment=None], and with the unrecognised
    [alignment='justify'], the horizontal offset of "Hi" (20 wide) in a
    box 100 wide placed at [xy = (7, 3)] is 7, the [x] of [xy], and not
    the centred offset 40. *)
Theorem unrecognised_alignment_keeps_x :
  forall fuel,
  exists l l',
    write fuel canvas (7, 3) (100, 40) "Hi" mono10 align_None = Some l
    /\ write fuel canvas (7, 3) (100, 40) "Hi" mono10 align_justify = Some l'
    /\ w_text_width l = 20 /\ w_x l = 7
    /\ w_text_width l' = 20 /\ w_x l' = 7
    /\ (100 - 20) ÷ 2 = 40.
Proof.
  intros fuel. do 2 eexists. split; [reflexivity |].
  split; [reflexivity |]. repeat split; reflexivity.
Qed.

(** C5 (counterexample). In a box of size 0 x 0 the truncation loop of
    [write] never exits: once "a" has been cut down to the empty string the
    measurement (0, 20) stays greater than (0, 0), so no amount of fuel
    lets [write] return. *)
Lemma truncation_loops_on_empty_box :
  ~ exists fuel l,
      write fuel canvas (7, 3) (0, 0) "a" mono10 no_kwargs = Some l.
Proof.
  intros (fuel & l & H).
  apply write_inv in H as (t & Hf & Ht & _).
  unfold fit in Hf; simpl in Hf. injection Hf as Hf. rewrite <- Hf in Ht.
  apply truncate_first in Ht as (j & _ & _ & Hc & _).
  destruct j as [| j]; [discriminate Hc |].
  rewrite dropped_all in Hc by (simpl; lia). discriminate Hc.
Qed.

(** C5 (amended). The autofit loop exits exactly when some size from 8
    upwards reaches one of the two thresholds.  The truncation loop exits
    exactly when one of the texts obtained by dropping characters, the empty
    text at the latest, is not greater than the box in the order on tuples,
    and it then exits within [len(text)] rounds; started on the empty text
    while that is still greater than the box, it never exits. *)
Theorem loops_terminate_when (box_size : Z * Z) (text : string) (font : Font)
        (autofit : bool) (fill_width fill_height : Q) :
  (autofit_triggered autofit fill_width fill_height = true ->
   ((exists fuel f,
        fit fuel box_size text font autofit fill_width fill_height = Some f)
    <-> exists s, 8 <= s
                  /\ grows font text box_size fill_width fill_height s
                     = false))
  /\ (forall fuel t,
         truncate fuel box_size font text = Some t ->
         exists n, (n <= String.length text)%nat
                   /\ fits font box_size (dropped n text) = true)
  /\ (forall n,
         fits font box_size (dropped n text) = true ->
         exists t, truncate (String.length text) box_size font text = Some t)
  /\ (fits font box_size "" = false ->
      forall fuel, truncate fuel box_size font "" = None).
Proof.
  split; [apply fit_terminates_iff |].
  assert (Hmin : forall n,
             fits font box_size (dropped n text) = true ->
             fits font box_size
                  (dropped (Nat.min n (String.length text)) text) = true).
  { intros n Hn.
    destruct (Nat.le_gt_cases n (String.length text)) as [Hle | Hgt].
    - now rewrite Nat.min_l.
    - rewrite Nat.min_r by lia.
      rewrite dropped_all in Hn by lia. now rewrite dropped_all. }
  split; [| split].
  - intros fuel t H.
    apply truncate_first in H as (j & _ & _ & Hc & _).
    exists (Nat.min j (String.length text)). split; [lia | now apply Hmin].
  - intros n Hn. apply Hmin in Hn.
    destruct (first_false
                (fun i => negb (fits font box_size (dropped i text)))
                (Nat.min n (String.length text)))
      as (j & Hj & Hcj & Hall).
    { now rewrite Hn. }
    exists (trunc_run font text j). apply truncate_first.
    exists j. repeat split; [lia | |].
    + now apply negb_false_iff in Hcj.
    + intros i Hi. specialize (Hall i Hi). now apply negb_true_iff in Hall.
  - intros He fuel.
    destruct (truncate fuel box_size font "") as [t |] eqn:T;
      [| reflexivity].
    apply truncate_first in T as (j & _ & _ & Hc & _).
    rewrite dropped_all in Hc by (simpl; lia). congruence.
Qed.

Lemma loops_terminate_when_witness :
  fits mono10 (20, 30) (dropped 1 "abc") = true
  /\ exists t, truncate 3 (20, 30) mono10 "abc" = Some t.
Proof.
  split; [reflexivity |].
  apply (proj1 (proj2 (proj2
           (loops_terminate_when (20, 30) "abc" mono10 false 1 (8 # 10))))
           1%nat).
  reflexivity.
Defined.

(** C6 (counterexample). For "a" in a box 17 wide with [fill_width=0.5]
    the width at size 8 is 8: it is below 17 * 0.5 = 8.5, so the algorithm
    as worded goes on to size 9, but it is not below [int(8.5)] = 8, so
    the code stays at size 8. *)
Lemma autofit_threshold_is_truncated :
  exists f g,
    fit 10 (17, 100) "a" mono10 true (1 # 2) 1 = Some f
    /\ spec_fit 10 (17, 100) "a" mono10 true (1 # 2) 1 = Some g
    /\ size f = 8 /\ size g = 9 /\ f <> g.
Proof.
  do 2 eexists. split; [reflexivity |]. split; [reflexivity |].
  repeat split. intros H. discriminate H.
Qed.

(** C6 (amended). The autofit block runs exactly when [autofit] is true or
    a fill ratio differs from its default (1.0 and 0.8); otherwise the font
    is left as it is.  When it runs, the font it returns is the face of the
    given font at the first size, counting up from 8, at which the measured
    width is not below [int(box_width * fill_width)] or the reference
    height is not below [int(box_height * fill_height)]; and whenever such
    a size exists the block returns it. *)
Theorem autofit_first_size (box_size : Z * Z) (text : string) (font : Font)
        (autofit : bool) (fill_width fill_height : Q) :
  (autofit_triggered autofit fill_width fill_height = true <->
   autofit = true \/ ~ (fill_width == 1)%Q \/ ~ (fill_height == 8 # 10)%Q)
  /\ (autofit_triggered autofit fill_width fill_height = false ->
      forall fuel,
        fit fuel box_size text font autofit fill_width fill_height
        = Some font)
  /\ (autofit_triggered autofit fill_width fill_height = true ->
      (forall fuel f,
          fit fuel box_size text font autofit fill_width fill_height
          = Some f ->
          f = truetype (path font) (size f)
          /\ 8 <= size f
          /\ grows font text box_size fill_width fill_height (size f)
             = false
          /\ forall s, 8 <= s < size f ->
                       grows font text box_size fill_width fill_height s
                       = true)
      /\ (forall s,
             8 <= s ->
             grows font text box_size fill_width fill_height s = false ->
             (forall k, 8 <= k < s ->
                        grows font text box_size fill_width fill_height k
                        = true) ->
             fit (Z.to_nat (s - 8)) box_size text font autofit
                 fill_width fill_height
             = Some (truetype (path font) s))).
Proof.
  split; [apply autofit_triggered_iff |]. split.
  - intros Ht fuel. unfold fit. now rewrite Ht.
  - intros Ht. unfold fit. rewrite Ht. split.
    + intros fuel f H.
      destruct (while _ _ _ _) as [r |] eqn:W; [| discriminate].
      injection H as <-.
      apply fit_loop_first in W as (j & _ & -> & Hc & Hall).
      unfold fit_run; cbn [fs_font size path].
      repeat split; [lia | exact Hc |].
      intros s Hs.
      replace s with (8 + Z.of_nat (Z.to_nat (s - 8))) by lia.
      apply Hall. lia.
    + intros s Hs Hc Hall.
      assert (W : while (Z.to_nat (s - 8))
                        (fit_cond box_size fill_width fill_height)
                        (fit_body text) (fit_init font text)
                  = Some (fit_run font text (Z.to_nat (s - 8)))).
      { apply fit_loop_first. exists (Z.to_nat (s - 8)).
        replace (8 + Z.of_nat (Z.to_nat (s - 8))) with s by lia.
        repeat split; auto. intros i Hi. apply Hall. lia. }
      rewrite W. unfold fit_run; cbn [fs_font].
      now replace (8 + Z.of_nat (Z.to_nat (s - 8))) with s by lia.
Qed.

Lemma autofit_first_size_witness :
  autofit_triggered true (1 # 2) 1 = true
  /\ fit 2 (21, 100) "a" mono10 true (1 # 2) 1 = Some (truetype mono 10).
Proof.
  split; [reflexivity |].
  apply (proj2 (proj2 (proj2
           (autofit_first_size (21, 100) "a" mono10 true (1 # 2) 1))
           eq_refl) 10).
  - lia.
  - reflexivity.
  - intros k Hk.
    assert (E : k = 8 \/ k = 9) by lia.
    destruct E as [-> | ->]; reflexivity.
Defined.

(** C7. The autofit search is monotone in the box: with the text, the
    font and non-negative fill ratios fixed, whenever the search in a box
    returns a font, the search in a box that is no wider and no taller
    returns one as well, of a size that is not larger. *)
Theorem autofit_monotone (fuel : nat) (text : string) (font : Font)
        (autofit : bool) (fill_width fill_height : Q)
        (bw bh bw' bh' : Z) (f' : Font) :
  (0 <= fill_width)%Q -> (0 <= fill_height)%Q ->
  bw <= bw' -> bh <= bh' ->
  fit fuel (bw', bh') text font autofit fill_width fill_height = Some f' ->
  exists f,
    fit fuel (bw, bh) text font autofit fill_width fill_height = Some f
    /\ size f <= size f'.
Proof.
  intros Hw Hh Hbw Hbh. unfold fit.
  destruct (autofit_triggered autofit fill_width fill_height).
  - destruct (while _ _ _ _) as [r' |] eqn:W'; [| discriminate].
    intros [= <-].
    apply fit_loop_first in W' as (j' & Hj' & -> & Hc' & _).
    destruct (first_false
                (fun i => grows font text (bw, bh) fill_width fill_height
                                (8 + Z.of_nat i)) j')
      as (j & Hj & Hc & Hall).
    { destruct (grows font text (bw, bh) _ _ _) eqn:G; [| reflexivity].
      apply (grows_mono _ _ bw bh bw' bh') in G; auto. congruence. }
    assert (W : while fuel (fit_cond (bw, bh) fill_width fill_height)
                      (fit_body text) (fit_init font text)
                = Some (fit_run font text j)).
    { apply fit_loop_first. exists j. repeat split; auto. lia. }
    rewrite W. eexists; split; [reflexivity |].
    unfold fit_run; cbn [fs_font size]. lia.
  - intros [= <-]. exists font. split; [reflexivity | lia].
Qed.

Lemma autofit_monotone_witness :
  exists f, fit 40 (20, 100) "a" mono10 true 1 1 = Some f /\ size f <= 40.
Proof.
  apply (autofit_monotone 40 "a" mono10 true 1 1 20 100 40 100
                          (truetype mono 40)).
  - discriminate.
  - discriminate.
  - lia.
  - lia.
  - reflexivity.
Defined.

(** C8. Whenever [write] draws, the text it draws is a prefix of the text
    it was given and is no longer than it; and [write] does draw, given
    fuel for [len(text)] rounds, whenever the autofit block returns a font
    at which the empty text is not greater than the box. *)
Theorem drawn_text_is_prefix (image : Image) (xy box_size : Z * Z)
        (text : string) (font : Font) (kwargs : Kwargs) :
  (forall fuel l,
      write fuel image xy box_size text font kwargs = Some l ->
      prefix (w_text l) text = true
      /\ (String.length (w_text l) <= String.length text)%nat)
  /\ (forall fuel f,
         fit fuel box_size text font (default (kw_autofit kwargs) false)
             (default (kw_fill_width kwargs) 1%Q)
             (default (kw_fill_height kwargs) (8 # 10)%Q) = Some f ->
         fits f box_size "" = true ->
         (String.length text <= fuel)%nat ->
         exists l, write fuel image xy box_size text font kwargs = Some l).
Proof.
  split.
  - intros fuel l H.
    apply write_inv in H as (t & _ & Ht & -> & _).
    eapply truncate_prefix; eassumption.
  - intros fuel f. apply write_returns.
Qed.

Lemma drawn_text_is_prefix_witness :
  (exists l, write 5 canvas (7, 3) (25, 30) "abc" mono10 no_kwargs = Some l
             /\ w_text l = "ab")
  /\ prefix "ab" "abc" = true /\ (2 <= 3)%nat.
Proof.
  split.
  - eexists. split; reflexivity.
  - exact (proj1 (drawn_text_is_prefix canvas (7, 3) (25, 30) "abc" mono10
                                       no_kwargs) 5%nat _ eq_refl).
Defined.

End WriteTheorems.

(** ** Facts about [text_wrap] *)

Module TextWrapFacts.
Import PyFacts.

(** *** Strings *)

Lemma append_assoc (a b c : string) :
  ((a ++ b) ++ c = a ++ (b ++ c))%string.
Proof. induction a as [| x a IH]; simpl; [reflexivity | now rewrite IH]. Qed.

Lemma append_empty_r (a : string) : (a ++ "")%string = a.
Proof. induction a as [| x a IH]; simpl; [reflexivity | now rewrite IH]. Qed.

Lemma substring_0_append (s t : string) :
  substring 0 (String.length s) (s ++ t) = s.
Proof.
  induction s as [| c s IH]; simpl.
  - destruct t; reflexivity.
  - now rewrite IH.
Qed.

Lemma length_append (s t : string) :
  String.length (s ++ t) = (String.length s + String.length t)%nat.
Proof. induction s as [| c s IH]; simpl; [reflexivity | now rewrite IH]. Qed.

Lemma drop_last_space (s : string) : drop_last (s ++ " ") = s.
Proof.
  unfold drop_last. rewrite length_append; simpl String.length.
  replace (String.length s + 1 - 1)%nat with (String.length s) by lia.
  apply substring_0_append.
Qed.

Lemma get_length_append (s t : string) :
  get (String.length s) (s ++ t) = get 0 t.
Proof. induction s as [| c s IH]; simpl; [reflexivity | exact IH]. Qed.

Lemma ends_with_space_append (s : string) :
  ends_with_space (s ++ " ") = true.
Proof.
  unfold ends_with_space. rewrite length_append; simpl String.length.
  replace (String.length s + 1 - 1)%nat with (String.length s) by lia.
  now rewrite get_length_append.
Qed.

(** *** Splitting at spaces *)

Lemma split_nonempty (s : string) : split s <> [].
Proof.
  induction s as [| c s IH]; simpl; [discriminate |].
  destruct (Ascii.eqb c " "); [discriminate |].
  destruct (split s); discriminate.
Qed.

Lemma split_append_space (s t : string) :
  split (s ++ " " ++ t) = split s ++ split t.
Proof.
  change (" " ++ t)%string with (String " "%char t).
  induction s as [| c s IH]; simpl; [reflexivity |].
  destruct (Ascii.eqb c " "); [now rewrite IH |].
  rewrite IH. pose proof (split_nonempty s) as Hs.
  destruct (split s) as [| w ws]; [congruence | reflexivity].
Qed.

(** A word: a string that splitting leaves whole. *)
Lemma split_words (s : string) : Forall (fun w => split w = [w]) (split s).
Proof.
  induction s as [| c s IH]; simpl.
  - constructor; [reflexivity | constructor].
  - destruct (Ascii.eqb c " ") eqn:E.
    + constructor; [reflexivity | exact IH].
    + pose proof (split_nonempty s) as Hs.
      destruct (split s) as [| w ws]; [congruence |].
      inversion IH as [| ? ? Hw Hws]; subst.
      constructor; [| exact Hws].
      simpl. now rewrite E, Hw.
Qed.

Lemma word_ends_without_space (w : string) :
  split w = [w] -> ends_with_space w = false.
Proof.
  intros Hw.
  destruct (ends_with_space w) eqn:E; [| reflexivity]. exfalso.
  assert (exists s, w = (s ++ " ")%string) as (s & ->).
  { clear Hw. unfold ends_with_space in E.
    induction w as [| c w IH]; [discriminate |].
    destruct w as [| d w].
    - simpl in E. apply Ascii.eqb_eq in E. subst c. now exists "".
    - destruct IH as (s & Hs).
      + simpl in E |- *. now rewrite Nat.sub_0_r.
      + exists (String c s). simpl. now rewrite <- Hs. }
  assert (H : split (s ++ " " ++ "") = [(s ++ " ")%string]) by exact Hw.
  rewrite split_append_space in H. simpl in H.
  apply (f_equal (@List.length string)) in H.
  rewrite length_app in H. simpl in H.
  pose proof (split_nonempty s). destruct (split s); simpl in H; [congruence | lia].
Qed.

(** *** Tokens *)

Lemma tokens_append_space (s t : string) :
  tokens (s ++ " " ++ t) = tokens s ++ tokens t.
Proof. unfold tokens. now rewrite split_append_space, filter_app. Qed.

Lemma tokens_word (w : string) :
  split w = [w] -> tokens w = filter nonempty [w].
Proof. intros H. unfold tokens. now rewrite H. Qed.

Lemma tokens_greedy (g : list string) :
  Forall (fun w => split w = [w]) g -> tokens (greedy g) = filter nonempty g.
Proof.
  induction 1 as [| w g Hw Hg IH]; [reflexivity |].
  change (greedy (w :: g)) with (w ++ " " ++ greedy g)%string.
  rewrite tokens_append_space, IH, (tokens_word w Hw).
  simpl. now destruct (nonempty w).
Qed.

Lemma tokens_join (lines : list string) :
  tokens (join lines) = List.concat (map tokens lines).
Proof.
  induction lines as [| s rest IH]; [reflexivity |].
  destruct rest as [| s' rest].
  - simpl. now rewrite app_nil_r.
  - change (join (s :: s' :: rest))
      with (s ++ " " ++ join (s' :: rest))%string.
    rewrite tokens_append_space, IH. reflexivity.
Qed.

Lemma filter_concat {A : Type} (f : A -> bool) (ls : list (list A)) :
  filter f (List.concat ls) = List.concat (map (filter f) ls).
Proof.
  induction ls as [| l ls IH]; simpl; [reflexivity |].
  now rewrite filter_app, IH.
Qed.

(** *** Lists of words *)

Lemma greedy_snoc (g : list string) (w : string) :
  greedy (g ++ [w]) = (greedy g ++ w ++ " ")%string.
Proof.
  induction g as [| x g IH]; simpl.
  - reflexivity.
  - rewrite IH, append_assoc. reflexivity.
Qed.

Lemma greedy_cons_not_empty (x : string) (g : list string) :
  is_empty (greedy (x :: g)) = false.
Proof. simpl. destruct x; reflexivity. Qed.

Lemma greedy_ends_with_space (g : list string) :
  g <> [] -> ends_with_space (greedy g) = true.
Proof.
  intros Hg. destruct (exists_last Hg) as (g' & w & ->).
  rewrite greedy_snoc, <- append_assoc. apply ends_with_space_append.
Qed.

Lemma firstn_succ_nth {A : Type} (l : list A) (k : nat) (d : A) :
  (k < List.length l)%nat -> firstn (S k) l = firstn k l ++ [nth k l d].
Proof.
  revert l; induction k as [| k IH]; intros [| x l] H; simpl in *;
    try lia; [reflexivity |].
  f_equal. apply IH. lia.
Qed.

Lemma firstn_plus {A : Type} (i k : nat) (l : list A) :
  firstn (i + k) l = firstn i l ++ firstn k (skipn i l).
Proof.
  revert l; induction i as [| i IH]; intros l; [reflexivity |].
  destruct l as [| x l]; simpl.
  - now rewrite firstn_nil.
  - now rewrite IH.
Qed.

(** *** The two loops *)

Section Wrap.
Variable font : Font.
Variable max_width : Z.
Variable words : list string.

Lemma inner_preserved (i0 : nat) (s s' : Inner) :
  inner_inv font max_width words i0 s ->
  inner_cond font max_width words s = true ->
  inner_body words s = Some s' ->
  inner_inv font max_width words i0 s'.
Proof.
  intros (k & Hi & Hle & Hline & _) Hc [= <-].
  unfold inner_cond in Hc.
  apply andb_true_iff in Hc as [Hlt Hw].
  apply Nat.ltb_lt in Hlt. apply Z.leb_le in Hw.
  exists (S k). cbn [in_i in_line]. repeat split.
  - lia.
  - lia.
  - rewrite (firstn_succ_nth _ k "")
      by (rewrite length_skipn; lia).
    now rewrite greedy_snoc, nth_skipn, Hline, Hi.
  - intros _. now rewrite <- append_assoc, drop_last_space.
Qed.

Lemma inner_terminates (fuel : nat) (s : Inner) :
  (List.length words - in_i s <= fuel)%nat ->
  exists r,
    while fuel (inner_cond font max_width words) (inner_body words) s
    = Some r.
Proof.
  apply (while_terminates _ _ (fun _ => True)
                          (fun s => (List.length words - in_i s)%nat));
    [| exact I].
  intros s0 _ Hc. unfold inner_cond in Hc.
  apply andb_true_iff in Hc as [Hlt _]. apply Nat.ltb_lt in Hlt.
  eexists. split; [reflexivity |]. split; [exact I |].
  cbn [in_i]. lia.
Qed.

Lemma outer_step (fuel : nat) (s : Outer) :
  outer_inv font max_width words s ->
  outer_cond words s = true ->
  (List.length words <= fuel)%nat ->
  exists s',
    outer_body font max_width words fuel s = Some s'
    /\ outer_inv font max_width words s'
    /\ (out_i s < out_i s')%nat.
Proof.
  intros (Hle & groups & Hcat & Hem) Hc Hfuel.
  unfold outer_cond in Hc. apply Nat.ltb_lt in Hc.
  unfold outer_body.
  destruct (inner_terminates fuel {| in_line := ""; in_i := out_i s |})
    as (r & Hr); [cbn [in_i]; lia |].
  rewrite Hr.
  apply (while_inv _ _ (inner_inv font max_width words (out_i s))) in Hr
      as ((k & Hi & Hk & Hline & Hfit) & Hexit);
    [| intros ? ?; apply inner_preserved
     | exists O; cbn [in_i in_line]; repeat split; [lia | lia | lia]].
  destruct (is_empty (in_line r)) eqn:E.
  - (* no word was taken: the next word alone is too wide *)
    assert (k = O) as ->.
    { destruct k as [| k]; [reflexivity |]. exfalso.
      rewrite Hline in E.
      destruct (skipn (out_i s) words) as [| x l] eqn:S.
      - apply (f_equal (@List.length string)) in S.
        rewrite length_skipn in S. simpl in S. lia.
      - simpl firstn in E. rewrite greedy_cons_not_empty in E.
        discriminate. }
    rewrite Nat.add_0_r in Hi. simpl in Hline.
    unfold inner_cond in Hexit. rewrite Hi, Hline in Hexit.
    apply andb_false_iff in Hexit as [Hexit | Hexit];
      [apply Nat.ltb_ge in Hexit; lia |].
    apply Z.leb_gt in Hexit. simpl append in Hexit.
    rewrite Hi, (nth_error_nth' words "" Hc).
    eexists. split; [reflexivity |]. unfold outer_inv; cbn [out_i out_lines].
    split; [| lia]. split; [lia |].
    exists (groups ++ [[nth (out_i s) words ""]]). split.
    + rewrite concat_app, Hcat. cbn [List.concat app].
      now rewrite (firstn_succ_nth _ _ "") by lia.
    + apply Forall2_app; [exact Hem |].
      constructor; [| constructor]. now constructor.
  - (* the words taken make the line *)
    assert (Hpos : (0 < k)%nat).
    { destruct k; [| lia]. rewrite Hline in E. discriminate. }
    eexists. split; [reflexivity |]. unfold outer_inv; cbn [out_i out_lines].
    split; [| lia]. split; [lia |].
    exists (groups ++ [firstn k (skipn (out_i s) words)]). split.
    + rewrite concat_app, Hcat. cbn [List.concat].
      now rewrite app_nil_r, Hi, firstn_plus.
    + apply Forall2_app; [exact Hem |].
      constructor; [| constructor].
      rewrite Hline. constructor.
      * intros Hnil. rewrite Hline, Hnil in E. discriminate.
      * rewrite <- Hline. now apply Hfit.
Qed.

Lemma outer_loop (fuel : nat) :
  (List.length words <= fuel)%nat ->
  exists r,
    while fuel (outer_cond words) (outer_body font max_width words fuel)
          {| out_i := 0; out_lines := [] |} = Some r
    /\ exists groups,
        List.concat groups = words
        /\ Forall2 (emitted font max_width) groups (out_lines r).
Proof.
  intros Hfuel.
  assert (Hinit : outer_inv font max_width words
                            {| out_i := 0; out_lines := [] |}).
  { split; [cbn; lia |]. exists []. split; constructor. }
  destruct (while_terminates
              (outer_cond words) (outer_body font max_width words fuel)
              (outer_inv font max_width words)
              (fun s => (List.length words - out_i s)%nat)) with
    (fuel := fuel) (s := {| out_i := 0; out_lines := [] |})
    as (r & Hr); [| exact Hinit | cbn; lia |].
  - intros s Hs Hc.
    destruct (outer_step fuel s Hs Hc Hfuel) as (s' & Hb & Hs' & Hlt).
    exists s'. split; [exact Hb |]. split; [exact Hs' |].
    destruct Hs' as [Hle _]. lia.
  - exists r. split; [exact Hr |].
    apply (while_inv _ _ (outer_inv font max_width words)) in Hr
        as ((Hle & groups & Hcat & Hem) & Hexit); [| | exact Hinit].
    + exists groups. split; [| exact Hem].
      unfold outer_cond in Hexit. apply Nat.ltb_ge in Hexit.
      rewrite Hcat. apply firstn_all2. exact Hexit.
    + intros s s' Hs Hc Hb.
      destruct (outer_step fuel s Hs Hc Hfuel) as (s'' & Hb' & Hs'' & _).
      congruence.
Qed.
End Wrap.

(** [text_wrap] returns, and its lines are the whole text, or are emitted
    from consecutive groups of the words of the text. *)
Lemma text_wrap_emitted (fuel : nat) (text : string) (font : Font)
      (max_width : Z) :
  (List.length (split text) <= fuel)%nat ->
  exists lines,
    text_wrap fuel text font max_width = Some lines
    /\ ((width font text < max_width /\ lines = [text])
        \/ (max_width <= width font text
            /\ exists groups,
                List.concat groups = split text
                /\ Forall2 (emitted font max_width) groups lines)).
Proof.
  intros Hfuel. unfold text_wrap.
  destruct (Z.ltb_spec (width font text) max_width) as [Hlt | Hge].
  - exists [text]. split; [reflexivity |]. left. auto.
  - destruct (outer_loop font max_width (split text) fuel Hfuel)
      as (r & -> & Hg).
    exists (out_lines r). split; [reflexivity |]. right. auto.
Qed.

Lemma emitted_in (font : Font) (max_width : Z)
      (groups : list (list string)) (lines : list string) (line : string) :
  Forall2 (emitted font max_width) groups lines -> In line lines ->
  exists g, In g groups /\ emitted font max_width g line.
Proof.
  induction 1 as [| g l groups lines Hgl _ IH]; intros Hin;
    [contradiction |].
  destruct Hin as [<- | Hin].
  - exists g. split; [now left | exact Hgl].
  - destruct (IH Hin) as (g' & Hg' & He). exists g'. split; [now right | exact He].
Qed.

Lemma emitted_tokens (font : Font) (max_width : Z)
      (groups : list (list string)) (lines : list string) :
  Forall2 (emitted font max_width) groups lines ->
  Forall (fun w => split w = [w]) (List.concat groups) ->
  List.concat (map tokens lines) = filter nonempty (List.concat groups).
Proof.
  induction 1 as [| g l groups lines Hgl _ IH]; intros Hw;
    [reflexivity |].
  simpl in Hw |- *. apply Forall_app in Hw as [Hg Hrest].
  rewrite filter_app, IH by exact Hrest. f_equal.
  destruct Hgl as [g _ _ | w _].
  - now apply tokens_greedy.
  - apply tokens_word. now inversion Hg.
Qed.

End TextWrapFacts.

(** ** Theorems about [text_wrap] *)

Module TextWrapTheorems.
Import PyFacts TextWrapFacts.

(** C4 (counterexample). With every character one pixel wide and
    [max_width = 5], "ab cd ef" is wrapped into "ab cd " and "ef ": the first
    line holds two words, none of the words of the text is wider than 5,
    and the line measures 6. *)
Lemma trailing_space_exceeds_max_width :
  exists lines line,
    text_wrap 3 "ab cd ef" unit_font 5 = Some lines
    /\ In line lines
    /\ tokens line = ["ab"; "cd"]
    /\ Forall (fun w => width unit_font w <= 5) (split "ab cd ef")
    /\ 5 < width unit_font line.
Proof.
  exists ["ab cd "; "ef "], "ab cd ".
  split; [reflexivity |]. split; [now left |]. split; [reflexivity |].
  split; [| reflexivity].
  repeat constructor; discriminate.
Qed.

(** C4 (amended). For every text, font and [max_width], [text_wrap]
    returns, and each line it returns either measures at most
    [max_width], or ends with the space that accumulation appends and
    measures at most [max_width] once that space is removed, or is one
    word of the text wider than [max_width], emitted unmodified; joining
    the lines with single spaces gives, in order, the non-empty words of
    the text. *)
Theorem text_wrap_lines_fit (fuel : nat) (text : string) (font : Font)
        (max_width : Z) :
  (List.length (split text) <= fuel)%nat ->
  exists lines,
    text_wrap fuel text font max_width = Some lines
    /\ (forall line,
           In line lines ->
           width font line <= max_width
           \/ (ends_with_space line = true
               /\ width font (drop_last line) <= max_width)
           \/ (In line (split text) /\ max_width < width font line))
    /\ tokens (join lines) = tokens text.
Proof.
  intros Hfuel.
  destruct (text_wrap_emitted fuel text font max_width Hfuel)
    as (lines & Hw & Hcases).
  exists lines. split; [exact Hw |].
  destruct Hcases as [[Hlt ->] | (Hge & groups & Hcat & Hem)]; split.
  - intros line [<- | []]. left. lia.
  - reflexivity.
  - intros line Hin.
    destruct (emitted_in _ _ _ _ _ Hem Hin) as (g & Hg & He).
    destruct He as [g Hne Hfit | w Hwide].
    + right; left. split; [now apply greedy_ends_with_space | exact Hfit].
    + right; right. split; [| exact Hwide].
      rewrite <- Hcat. apply in_concat. exists [w]. split; [exact Hg | now left].
  - rewrite tokens_join, (emitted_tokens _ _ _ _ Hem).
    + now rewrite Hcat.
    + rewrite Hcat. apply split_words.
Qed.

Lemma text_wrap_lines_fit_witness :
  (List.length (split "abc def") <= 2)%nat
  /\ exists lines,
      text_wrap 2 "abc def" unit_font 3 = Some lines
      /\ tokens (join lines) = tokens "abc def".
Proof.
  split; [apply le_n |].
  destruct (text_wrap_lines_fit 2 "abc def" unit_font 3 (le_n 2))
    as (lines & Hw & _ & Ht).
  exists lines. split; [exact Hw | exact Ht].
Defined.

(** C10 (counterexample). With every character one pixel wide and
    [max_width = 5], "ab cd ef" does not fit a single line and is wrapped
    into "ab cd " and "ef ": the first line is built by accumulation and
    ends with a space, and it is a substring of the text. *)
Lemma greedy_line_is_substring :
  exists lines line,
    5 <= width unit_font "ab cd ef"
    /\ text_wrap 3 "ab cd ef" unit_font 5 = Some lines
    /\ In line lines
    /\ ends_with_space line = true
    /\ ~ In line (split "ab cd ef")
    /\ is_substring line "ab cd ef" = true.
Proof.
  exists ["ab cd "; "ef "], "ab cd ".
  split; [discriminate |]. split; [reflexivity |]. split; [now left |].
  split; [reflexivity |]. split; [| reflexivity].
  intros [H | [H | [H | []]]]; discriminate H.
Qed.

End TextWrapTheorems.

(** ** Facts about [draw_border] *)

Module DrawBorderFacts.

Lemma int_half_quot (a : Z) : Py.int (inject_Z a / 2) = a ÷ 2.
Proof. unfold Py.int; simpl. now rewrite Z.mul_1_r. Qed.

(** [draw.arc] accepts a box whose corners are in order. *)
Lemma arc_returns (im : Image) (c1 c2 : Z * Z) (start stop : Z)
      (fill : string) (width : Z) :
  fst c1 <= fst c2 -> snd c1 <= snd c2 ->
  arc im c1 c2 start stop fill width
  = Returns (Arc im c1 c2 start stop fill width).
Proof.
  intros Hx Hy. unfold arc.
  apply Z.ltb_ge in Hx, Hy. now rewrite Hx, Hy.
Qed.

(** With a radius that is not negative every box handed to [draw.arc] has
    its corners in order, and [draw_border] returns the image with the four
    lines and, when the radius is not zero, the four arcs. *)
Lemma draw_border_returns (image : Image) (xy size : Z * Z)
      (radius thickness : Z) (shrinkage : Q * Q) :
  0 <= radius ->
  let w := fst (shrunk size shrinkage) in
  let h := snd (shrunk size shrinkage) in
  let x := fst xy + (fst size - w) ÷ 2 in
  let y := snd xy + (snd size - h) ÷ 2 in
  let d := radius * 2 in
  let lines :=
    Line (Line (Line (Line image
      (x + radius, y) (x + radius + (w - d), y) "black" thickness)
      (x + w, y + radius) (x + w, y + radius + (h - d)) "black" thickness)
      (x + radius + (w - d), y + h) (x + radius, y + h) "black" thickness)
      (x, y + radius + (h - d)) (x, y + radius) "black" thickness in
  draw_border image xy size radius thickness shrinkage
  = Returns
      (if radius =? 0 then lines
       else
         Arc (Arc (Arc (Arc lines
           (x, y) (x + d, y + d) 180 270 "black" thickness)
           (x + w - d, y) (x + w, y + d) 270 360 "black" thickness)
           (x + w - d, y + h - d) (x + w, y + h) 0 90 "black" thickness)
           (x, y + h - d) (x + d, y + h) 90 180 "black" thickness).
Proof.
  intros Hr w h x y d lines. subst w h x y d lines. unfold draw_border.
  destruct (shrunk size shrinkage) as [w h]. cbn [fst snd].
  rewrite !int_half_quot.
  destruct (Z.eqb_spec radius 0) as [-> | Hne]; cbn [negb]; [reflexivity |].
  rewrite arc_returns by (cbn [fst snd]; lia). cbn [and_then].
  rewrite arc_returns by (cbn [fst snd]; lia). cbn [and_then].
  rewrite arc_returns by (cbn [fst snd]; lia). cbn [and_then].
  apply arc_returns; cbn [fst snd]; lia.
Qed.

(** With a negative radius the first box handed to [draw.arc] is inverted,
    and the [ValueError] of [draw.arc] ends the call. *)
Lemma draw_border_negative_radius (image : Image) (xy size : Z * Z)
      (radius thickness : Z) (shrinkage : Q * Q) :
  radius < 0 ->
  draw_border image xy size radius thickness shrinkage
  = Raises "ValueError: x1 must be greater than or equal to x0".
Proof.
  intros Hr. unfold draw_border.
  destruct (shrunk size shrinkage) as [w h].
  destruct (Z.eqb_spec radius 0) as [-> | Hne]; [lia |]. cbn [negb].
  unfold arc at 1. cbn [fst snd].
  destruct (Z.ltb_spec
              (fst xy + Py.int (inject_Z (fst size - w) / 2) + radius * 2)
              (fst xy + Py.int (inject_Z (fst size - w) / 2)))
    as [_ | Hge]; [reflexivity | lia].
Qed.

End DrawBorderFacts.

(** ** Theorems about [draw_border] *)

Module DrawBorderTheorems.
Import DrawBorderFacts.

(** C9 (counterexample). For a 10 x 10 border shrunk by one half the inset
    box is 5 x 5; with radius 5 the diameter 10 exceeds it, and
    [draw_border] returns the canvas with four lines and four arcs drawn
    on it: nothing is raised. *)
Lemma degenerate_border_is_drawn :
  exists im,
    degenerate (10, 10) 5 (1 # 2, 1 # 2)%Q = true
    /\ draw_border canvas (0, 0) (10, 10) 5 1 (1 # 2, 1 # 2)%Q = Returns im
    /\ lines_drawn im = 4%nat
    /\ arcs_drawn im = 4%nat.
Proof. eexists. repeat split. Qed.

(** C9 (amended). [draw_border] checks nothing itself: for every radius
    that is not negative, whether or not twice the radius exceeds the inset
    box, it returns the canvas with four more lines drawn on it and, when
    the radius is not zero, four more arcs; no error is reported. *)
Theorem draw_border_always_draws (image : Image) (xy size : Z * Z)
        (radius thickness : Z) (shrinkage : Q * Q) :
  0 <= radius ->
  exists im,
    draw_border image xy size radius thickness shrinkage = Returns im
    /\ lines_drawn im = (4 + lines_drawn image)%nat
    /\ arcs_drawn im
       = ((if (radius =? 0)%Z then 0 else 4) + arcs_drawn image)%nat.
Proof.
  intros Hr.
  rewrite (draw_border_returns image xy size radius thickness shrinkage Hr).
  eexists. split; [reflexivity |].
  destruct (radius =? 0); split; reflexivity.
Qed.

Lemma draw_border_always_draws_witness :
  0 <= 5
  /\ degenerate (10, 10) 5 (1 # 2, 1 # 2)%Q = true
  /\ exists im,
      draw_border canvas (0, 0) (10, 10) 5 1 (1 # 2, 1 # 2)%Q = Returns im
      /\ lines_drawn im = 4%nat
      /\ arcs_drawn im = 4%nat.
Proof.
  split; [discriminate |]. split; [reflexivity |].
  apply (draw_border_always_draws canvas (0, 0) (10, 10) 5 1
                                  (1 # 2, 1 # 2)%Q).
  discriminate.
Defined.

End DrawBorderTheorems.

(** ** Further properties of [write] *)

Module WriteExtras.
Import PyFacts WriteFacts.

(** X1. The width and height from which [write] computes the offsets are those
    of the text it draws, measured with the font it draws with. *)
Theorem write_measures_drawn_text (fuel : nat) (image : Image)
        (xy box_size : Z * Z) (text : string) (font : Font)
        (kwargs : Kwargs) (l : Locals) :
  write fuel image xy box_size text font kwargs = Some l ->
  w_text_width l = fst (getsize (w_font l) (w_text l))
  /\ w_text_height l = snd (getsize (w_font l) "hg").
Proof.
  intros H. apply write_inv in H as (t & _ & Ht & -> & -> & -> & _).
  destruct box_size as [bw bh].
  apply truncate_fits in Ht as (Hm & _).
  unfold measure in Hm. now injection Hm as -> ->.
Qed.

Lemma write_measures_drawn_text_witness :
  exists l,
    write 5 canvas (7, 3) (25, 30) "abc" mono10 no_kwargs = Some l
    /\ w_text_width l = fst (getsize (w_font l) (w_text l))
    /\ w_text_height l = snd (getsize (w_font l) "hg").
Proof.
  eexists. split; [reflexivity |].
  exact (write_measures_drawn_text 5 canvas (7, 3) (25, 30) "abc" mono10
                                   no_kwargs _ eq_refl).
Defined.

(** X2. Truncation in [write] stops at the first text that the comparison
    accepts: the drawn text is the given text with [j] characters dropped,
    it is not greater than the box, every text with fewer characters dropped
    is; a text that is not greater than the box is drawn whole. *)
Theorem write_stops_at_first_fit (fuel : nat) (image : Image)
        (xy box_size : Z * Z) (text : string) (font : Font)
        (kwargs : Kwargs) (l : Locals) :
  write fuel image xy box_size text font kwargs = Some l ->
  (exists j,
      w_text l = dropped j text
      /\ fits (w_font l) box_size (w_text l) = true
      /\ forall i, (i < j)%nat ->
                   fits (w_font l) box_size (dropped i text) = false)
  /\ (fits (w_font l) box_size text = true -> w_text l = text).
Proof.
  intros H. apply write_inv in H as (t & _ & Ht & -> & _).
  apply truncate_first in Ht as (j & _ & -> & Hc & Hall).
  change (ts_text (trunc_run (w_font l) text j)) with (dropped j text).
  split; [exists j; auto |].
  intros Hfit. destruct j as [| j]; [reflexivity |].
  specialize (Hall O (Nat.lt_0_succ j)). simpl in Hall. congruence.
Qed.

Lemma write_stops_at_first_fit_witness :
  exists l,
    write 5 canvas (7, 3) (25, 30) "abc" mono10 no_kwargs = Some l
    /\ exists j,
        w_text l = dropped j "abc"
        /\ fits (w_font l) (25, 30) (w_text l) = true
        /\ forall i, (i < j)%nat ->
                     fits (w_font l) (25, 30) (dropped i "abc") = false.
Proof.
  eexists. split; [reflexivity |].
  exact (proj1 (write_stops_at_first_fit 5 canvas (7, 3) (25, 30) "abc"
                                         mono10 no_kwargs _ eq_refl)).
Defined.

(** X3. Truncating again changes nothing: the truncated text, given to the
    truncation block with the same font and box, comes back as it is. *)
Theorem truncate_idempotent (fuel fuel' : nat) (box_size : Z * Z)
        (font : Font) (text : string) (t : TruncState) :
  truncate fuel box_size font text = Some t ->
  truncate fuel' box_size font (ts_text t) = Some t.
Proof.
  intros H. apply truncate_first in H as (j & _ & -> & Hc & _).
  apply truncate_first. exists O. repeat split; [lia | exact Hc |].
  intros i Hi. lia.
Qed.

Lemma truncate_idempotent_witness :
  exists t,
    truncate 5 (25, 30) mono10 "abc" = Some t
    /\ truncate 0 (25, 30) mono10 (ts_text t) = Some t.
Proof.
  eexists. split; [reflexivity |].
  exact (truncate_idempotent 5 0 (25, 30) mono10 "abc" _ eq_refl).
Defined.

Lemma quot2_bounds (d : Z) : 0 <= d -> 0 <= d ÷ 2 /\ d - 1 <= 2 * (d ÷ 2) <= d.
Proof.
  intros Hd. rewrite Z.quot_div_nonneg by lia.
  pose proof (Z.div_mod d 2 ltac:(lia)).
  pose proof (Z.mod_pos_bound d 2 ltac:(lia)). lia.
Qed.

(** X4. With one of the three recognised alignments the drawn text lies between
    the left and right sides of the box; it also lies between the top and
    the bottom when the reference height does not exceed the box height. *)
Theorem drawn_text_inside_box (fuel : nat) (image : Image)
        (xy : Z * Z) (bw bh : Z) (text : string) (font : Font)
        (kwargs : Kwargs) (l : Locals) :
  let alignment := default (kw_alignment kwargs) (PyStr "center") in
  alignment = PyStr "center" \/ alignment = PyStr "left"
  \/ alignment = PyStr "right" ->
  write fuel image xy (bw, bh) text font kwargs = Some l ->
  0 <= w_x l /\ w_x l + w_text_width l <= bw
  /\ (w_text_height l <= bh ->
      0 <= w_y l /\ w_y l + w_text_height l <= bh).
Proof.
  intros alignment Ha H.
  apply write_inv in H as (t & _ & Ht & _ & -> & -> & Hxy & _).
  apply truncate_fits in Ht as (_ & Hw & _).
  fold alignment in Hxy.
  assert (Hy : forall a,
             snd (align a xy (bw, bh) (ts_text_width t) (ts_text_height t))
             = (bh - ts_text_height t) ÷ 2).
  { intros a. destruct xy as [x y]. unfold align. cbn [snd].
    apply int_half_diff. }
  assert (Hv : w_y l = (bh - ts_text_height t) ÷ 2).
  { rewrite <- (Hy alignment), <- Hxy. reflexivity. }
  assert (Hx : w_x l
               = fst (align alignment xy (bw, bh) (ts_text_width t)
                            (ts_text_height t)))
    by now rewrite <- Hxy.
  pose proof (quot2_bounds (bw - ts_text_width t) ltac:(lia)) as Hq.
  split; [| split].
  - destruct Ha as [Ha | [Ha | Ha]]; rewrite Ha in Hx.
    + rewrite WriteTheorems.align_center in Hx. cbn [fst] in Hx. lia.
    + rewrite WriteTheorems.align_left in Hx. cbn [fst] in Hx. lia.
    + rewrite WriteTheorems.align_right in Hx. cbn [fst] in Hx. lia.
  - destruct Ha as [Ha | [Ha | Ha]]; rewrite Ha in Hx.
    + rewrite WriteTheorems.align_center in Hx. cbn [fst] in Hx. lia.
    + rewrite WriteTheorems.align_left in Hx. cbn [fst] in Hx. lia.
    + rewrite WriteTheorems.align_right in Hx. cbn [fst] in Hx. lia.
  - intros Hh.
    pose proof (quot2_bounds (bh - ts_text_height t) ltac:(lia)). lia.
Qed.

Lemma drawn_text_inside_box_witness :
  exists l,
    write 5 canvas (7, 3) (25, 30) "abc" mono10 no_kwargs = Some l
    /\ 0 <= w_x l /\ w_x l + w_text_width l <= 25.
Proof.
  eexists. split; [reflexivity |].
  destruct (drawn_text_inside_box 5 canvas (7, 3) 25 30 "abc" mono10
                                  no_kwargs _ (or_introl eq_refl) eq_refl)
    as (H0 & H1 & _).
  split; [exact H0 | exact H1].
Defined.

(** X5. Centred text has the same margin on both sides, up to one pixel that
    goes to the right; right-aligned text ends at the right side of the
    box; left-aligned text starts at its left side. *)
Theorem alignment_margins (fuel : nat) (image : Image)
        (xy : Z * Z) (bw bh : Z) (text : string) (font : Font)
        (kwargs : Kwargs) (l : Locals) :
  write fuel image xy (bw, bh) text font kwargs = Some l ->
  let alignment := default (kw_alignment kwargs) (PyStr "center") in
  let right_margin := bw - (w_x l + w_text_width l) in
  (alignment = PyStr "center" -> 0 <= right_margin - w_x l <= 1)
  /\ (alignment = PyStr "right" -> right_margin = 0)
  /\ (alignment = PyStr "left" -> w_x l = 0).
Proof.
  intros H alignment right_margin. subst right_margin.
  apply write_inv in H as (t & _ & Ht & _ & -> & _ & Hxy & _).
  apply truncate_fits in Ht as (_ & Hw & _).
  fold alignment in Hxy.
  assert (Hx : w_x l
               = fst (align alignment xy (bw, bh) (ts_text_width t)
                            (ts_text_height t)))
    by now rewrite <- Hxy.
  pose proof (quot2_bounds (bw - ts_text_width t) ltac:(lia)) as Hq.
  split; [| split]; intros Ha; rewrite Ha in Hx.
  - rewrite WriteTheorems.align_center in Hx. cbn [fst] in Hx. lia.
  - rewrite WriteTheorems.align_right in Hx. cbn [fst] in Hx. lia.
  - rewrite WriteTheorems.align_left in Hx. cbn [fst] in Hx. lia.
Qed.

Lemma alignment_margins_witness :
  exists l,
    write 5 canvas (7, 3) (25, 30) "abc" mono10 no_kwargs = Some l
    /\ 0 <= 25 - (w_x l + w_text_width l) - w_x l <= 1.
Proof.
  eexists. split; [reflexivity |].
  exact (proj1 (alignment_margins 5 canvas (7, 3) 25 30 "abc" mono10
                                  no_kwargs _ eq_refl) eq_refl).
Defined.

(** X6. For a font whose reference height at every size from 8 upwards is at
    least that size, the autofit block, when it runs, returns a font of a
    size between 8 and the larger of 8 and [int(box_height * fill_height)],
    after at most that many rounds less 8. *)
Theorem autofit_size_bounded (bw bh : Z) (text : string) (font : Font)
        (autofit : bool) (fill_width fill_height : Q) :
  let limit := Z.max 8 (Py.int (inject_Z bh * fill_height)) in
  (forall s, 8 <= s -> s <= snd (path font s "hg")) ->
  autofit_triggered autofit fill_width fill_height = true ->
  exists f,
    fit (Z.to_nat (limit - 8)) (bw, bh) text font autofit
        fill_width fill_height = Some f
    /\ 8 <= size f <= limit.
Proof.
  intros limit Hhg Ht.
  destruct (first_false
              (fun i => grows font text (bw, bh) fill_width fill_height
                              (8 + Z.of_nat i))
              (Z.to_nat (limit - 8))) as (j & Hj & Hc & Hall).
  { unfold grows; cbn [fst snd].
    apply andb_false_iff; right. apply Z.ltb_ge.
    specialize (Hhg (8 + Z.of_nat (Z.to_nat (limit - 8))) ltac:(lia)).
    subst limit. lia. }
  exists (truetype (path font) (8 + Z.of_nat j)). split.
  - unfold fit. rewrite Ht.
    assert (W : while (Z.to_nat (limit - 8))
                      (fit_cond (bw, bh) fill_width fill_height)
                      (fit_body text) (fit_init font text)
                = Some (fit_run font text j)).
    { apply fit_loop_first. exists j. repeat split; auto. }
    now rewrite W.
  - cbn [size]. subst limit. lia.
Qed.

Lemma autofit_size_bounded_witness :
  exists f,
    fit 42 (400, 50) "a" mono10 true 1 1 = Some f /\ 8 <= size f <= 50.
Proof.
  apply (autofit_size_bounded 400 50 "a" mono10 true 1 1).
  - intros s Hs. unfold mono10, mono; cbn [path snd]. lia.
  - reflexivity.
Defined.

End WriteExtras.

(** ** Further properties of [text_wrap] *)

Module TextWrapExtras.
Import PyFacts TextWrapFacts.

Lemma skipn_nth_cons {A : Type} (l : list A) (i : nat) (d : A) :
  (i < List.length l)%nat -> skipn i l = nth i l d :: skipn (S i) l.
Proof.
  revert l; induction i as [| i IH]; intros [| x l] H; simpl in *;
    try lia; [reflexivity |].
  apply IH. lia.
Qed.

Section Greedy.
Variable font : Font.
Variable max_width : Z.
Variable words : list string.

(** What the inner loop returns when started at a word: the words it took,
    and why it stopped. *)
Lemma inner_result (fuel i : nat) :
  (i < List.length words)%nat -> (List.length words <= fuel)%nat ->
  exists r k,
    while fuel (inner_cond font max_width words) (inner_body words)
          {| in_line := ""; in_i := i |} = Some r
    /\ in_i r = (i + k)%nat
    /\ (i + k <= List.length words)%nat
    /\ in_line r = greedy (firstn k (skipn i words))
    /\ ((0 < k)%nat -> width font (drop_last (in_line r)) <= max_width)
    /\ ((i + k)%nat = List.length words
        \/ ((i + k < List.length words)%nat
            /\ max_width < width font (in_line r ++ nth (i + k) words ""))).
Proof.
  intros Hi Hfuel.
  destruct (inner_terminates font max_width words fuel
                             {| in_line := ""; in_i := i |})
    as (r & Hr); [cbn [in_i]; lia |].
  pose proof Hr as Hr'.
  apply (while_inv _ _ (inner_inv font max_width words i)) in Hr'
      as ((k & Hk & Hle & Hline & Hfit) & Hexit);
    [| intros ? ?; apply inner_preserved
     | exists O; cbn [in_i in_line]; repeat split; [lia | lia | lia]].
  exists r, k. repeat split; auto.
  unfold inner_cond in Hexit. rewrite Hk in Hexit.
  destruct (Nat.eq_dec (i + k) (List.length words)) as [He | Hne];
    [now left | right].
  split; [lia |].
  apply andb_false_iff in Hexit as [Hexit | Hexit].
  - apply Nat.ltb_ge in Hexit. lia.
  - now apply Z.leb_gt in Hexit.
Qed.

Lemma wrapped_step (fuel : nat) (s : Outer) :
  wrapped_inv font max_width words s ->
  outer_cond words s = true ->
  (List.length words <= fuel)%nat ->
  exists s',
    outer_body font max_width words fuel s = Some s'
    /\ wrapped_inv font max_width words s'.
Proof.
  intros (Hle & Hinv) Hc Hfuel.
  unfold outer_cond in Hc. apply Nat.ltb_lt in Hc.
  destruct (inner_result fuel (out_i s) Hc Hfuel)
    as (r & k & Hr & Hk & Hkle & Hline & Hfit & Hstop).
  unfold outer_body. rewrite Hr.
  destruct (is_empty (in_line r)) eqn:E.
  - assert (k = O) as ->.
    { destruct k as [| k]; [reflexivity |]. exfalso.
      rewrite Hline, (skipn_nth_cons words (out_i s) "" Hc) in E.
      simpl firstn in E. rewrite greedy_cons_not_empty in E. discriminate. }
    rewrite Nat.add_0_r in Hk, Hstop. simpl in Hline.
    destruct Hstop as [Hstop | [_ Hstop]]; [lia |].
    rewrite Hline in Hstop. simpl append in Hstop.
    rewrite Hk, (nth_error_nth' words "" Hc).
    eexists. split; [reflexivity |].
    unfold wrapped_inv; cbn [out_i out_lines]. split; [lia |].
    intros lines Hl. rewrite <- app_assoc. apply Hinv.
    rewrite (skipn_nth_cons words (out_i s) "" Hc).
    now apply wrapped_forced.
  - assert (Hpos : (0 < k)%nat).
    { destruct k; [| lia]. rewrite Hline in E. discriminate. }
    eexists. split; [reflexivity |].
    unfold wrapped_inv; cbn [out_i out_lines]. split; [lia |].
    intros lines Hl. rewrite <- app_assoc. apply Hinv.
    rewrite <- (firstn_skipn k (skipn (out_i s) words)).
    rewrite skipn_skipn, (Nat.add_comm k), <- Hk, Hline.
    apply wrapped_line.
    + intros Hnil. rewrite Hline, Hnil in E. discriminate.
    + rewrite <- Hline. now apply Hfit.
    + rewrite <- Hline, Hk. destruct Hstop as [Hstop | [Hlt Hstop]].
      * left. apply skipn_all2. lia.
      * right.
        rewrite (skipn_nth_cons words (out_i s + k) "" Hlt).
        exact Hstop.
    + exact Hl.
Qed.

Lemma wrapped_loop (fuel : nat) :
  (List.length words <= fuel)%nat ->
  exists r,
    while fuel (outer_cond words) (outer_body font max_width words fuel)
          {| out_i := 0; out_lines := [] |} = Some r
    /\ wrapped font max_width words (out_lines r).
Proof.
  intros Hfuel.
  destruct (outer_loop font max_width words fuel Hfuel) as (r & Hr & _).
  exists r. split; [exact Hr |].
  apply (while_inv _ _ (wrapped_inv font max_width words)) in Hr
      as ((Hle & Hinv) & Hexit).
  - unfold outer_cond in Hexit. apply Nat.ltb_ge in Hexit.
    rewrite <- (app_nil_r (out_lines r)). apply Hinv.
    rewrite skipn_all2 by exact Hexit. constructor.
  - intros s s' Hs Hc Hb.
    destruct (wrapped_step fuel s Hs Hc Hfuel) as (s'' & Hb' & Hs'').
    congruence.
  - split; [cbn; lia |]. intros lines Hl. exact Hl.
Qed.
End Greedy.

Lemma wrapped_count (font : Font) (max_width : Z)
      (words lines : list string) :
  wrapped font max_width words lines ->
  (List.length lines <= List.length words)%nat
  /\ (words <> [] -> lines <> []).
Proof.
  induction 1 as [| w rest lines _ _ [IH _] | g rest lines Hg _ _ _ [IH _]].
  - split; [simpl; lia | congruence].
  - split; [simpl; lia | discriminate].
  - split; [| discriminate].
    rewrite length_app. destruct g; [congruence |]. simpl. lia.
Qed.

Lemma text_wrap_wrapped (fuel : nat) (text : string) (font : Font)
      (max_width : Z) :
  (List.length (split text) <= fuel)%nat ->
  max_width <= width font text ->
  exists lines,
    text_wrap fuel text font max_width = Some lines
    /\ wrapped font max_width (split text) lines.
Proof.
  intros Hfuel Hge. unfold text_wrap.
  destruct (Z.ltb_spec (width font text) max_width) as [Hlt | _]; [lia |].
  destruct (wrapped_loop font max_width (split text) fuel Hfuel)
    as (r & -> & Hw).
  exists (out_lines r). split; [reflexivity | exact Hw].
Qed.

(** X7. When the text does not fit a single line, [text_wrap] wraps greedily:
    a word is alone on its line, without a space, only if it is wider than
    [max_width] by itself; every other line holds a run of words that fits
    without its last space and is followed by no word or by a word that
    would not fit after it. *)
Theorem text_wrap_is_greedy (fuel : nat) (text : string) (font : Font)
        (max_width : Z) :
  (List.length (split text) <= fuel)%nat ->
  max_width <= width font text ->
  exists lines,
    text_wrap fuel text font max_width = Some lines
    /\ wrapped font max_width (split text) lines.
Proof.
  intros Hfuel Hge.
  destruct (text_wrap_wrapped fuel text font max_width Hfuel Hge)
    as (lines & Hw & Hwr).
  exists lines. split; [exact Hw | exact Hwr].
Qed.

Lemma text_wrap_is_greedy_witness :
  exists lines,
    text_wrap 3 "ab cd ef" unit_font 5 = Some lines
    /\ wrapped unit_font 5 (split "ab cd ef") lines.
Proof.
  apply (text_wrap_is_greedy 3 "ab cd ef" unit_font 5 (le_n 3)).
  discriminate.
Defined.

(** X8. [text_wrap] returns at least one line and at most as many lines as the
    text has words. *)
Theorem text_wrap_line_count (fuel : nat) (text : string) (font : Font)
        (max_width : Z) :
  (List.length (split text) <= fuel)%nat ->
  exists lines,
    text_wrap fuel text font max_width = Some lines
    /\ lines <> []
    /\ (List.length lines <= List.length (split text))%nat.
Proof.
  intros Hfuel.
  destruct (Z.ltb_spec (width font text) max_width) as [Hlt | Hge].
  - exists [text]. unfold text_wrap.
    apply Z.ltb_lt in Hlt. rewrite Hlt.
    split; [reflexivity |]. split; [discriminate |].
    pose proof (split_nonempty text).
    destruct (split text); [congruence | simpl; lia].
  - destruct (text_wrap_wrapped fuel text font max_width Hfuel Hge)
      as (lines & Hw & Hwr).
    exists lines. split; [exact Hw |].
    apply wrapped_count in Hwr as [Hlen Hne].
    split; [apply Hne, split_nonempty | exact Hlen].
Qed.

Lemma text_wrap_line_count_witness :
  exists lines,
    text_wrap 3 "ab cd ef" unit_font 5 = Some lines
    /\ lines <> [] /\ (List.length lines <= 3)%nat.
Proof.
  exact (text_wrap_line_count 3 "ab cd ef" unit_font 5 (le_n 3)).
Defined.

Lemma greedy_app (g h : list string) :
  greedy (g ++ h) = (greedy g ++ greedy h)%string.
Proof.
  induction g as [| w g IH]; simpl; [reflexivity |].
  now rewrite IH, append_assoc.
Qed.

Lemma greedy_split (text : string) : greedy (split text) = (text ++ " ")%string.
Proof.
  induction text as [| c text IH]; [reflexivity |].
  simpl split. destruct (Ascii.eqb_spec c " ") as [-> | Hc].
  - change (greedy ("" :: split text)) with (" " ++ greedy (split text))%string.
    now rewrite IH.
  - pose proof (split_nonempty text) as Hne.
    destruct (split text) as [| w ws]; [congruence |].
    simpl in IH |- *. now rewrite IH.
Qed.

(** X9. When the text does not fit a single line, nothing is lost or moved:
    the returned lines, with a space put after each line that is a bare
    word, concatenate to the text followed by one space; and if no word of
    the text is wider than [max_width] the lines as they are do. *)
Theorem text_wrap_concatenates (fuel : nat) (text : string) (font : Font)
        (max_width : Z) :
  (List.length (split text) <= fuel)%nat ->
  max_width <= width font text ->
  exists lines,
    text_wrap fuel text font max_width = Some lines
    /\ concat_lines (map spaced lines) = (text ++ " ")%string
    /\ (Forall (fun w => width font w <= max_width) (split text) ->
        concat_lines lines = (text ++ " ")%string).
Proof.
  intros Hfuel Hge.
  destruct (text_wrap_emitted fuel text font max_width Hfuel)
    as (lines & Hw & [[Hlt _] | (_ & groups & Hcat & Hem)]); [lia |].
  exists lines. split; [exact Hw |].
  pose proof (split_words text) as Hwords. rewrite <- Hcat in Hwords.
  assert (Hall : forall ws, Forall2 (emitted font max_width) groups ws ->
                            Forall (fun w => split w = [w])
                                   (List.concat groups) ->
                            concat_lines (map spaced ws)
                            = greedy (List.concat groups)
                              /\ (Forall (fun w => width font w <= max_width)
                                         (List.concat groups) ->
                                  concat_lines ws
                                  = greedy (List.concat groups))).
  { clear. induction 1 as [| g l groups ws Hgl _ IH]; intros Hwords.
    - split; reflexivity.
    - simpl in Hwords. apply Forall_app in Hwords as [Hg Hrest].
      destruct (IH Hrest) as [IH1 IH2].
      cbn [List.concat map concat_lines]. rewrite greedy_app, IH1.
      destruct Hgl as [g Hne Hfit | w Hwide].
      + split.
        * f_equal. unfold spaced. now rewrite (greedy_ends_with_space g Hne).
        * intros Hfits. apply Forall_app in Hfits as [_ Hfits].
          now rewrite IH2.
      + split.
        * f_equal. unfold spaced. inversion Hg as [| ? ? Hw _]; subst.
          now rewrite (word_ends_without_space w Hw).
        * intros Hfits. apply Forall_app in Hfits as [Hfits _].
          inversion Hfits; subst. lia. }
  destruct (Hall lines Hem Hwords) as [H1 H2].
  rewrite Hcat in H1, H2. rewrite greedy_split in H1, H2.
  split; [exact H1 | exact H2].
Qed.

Lemma text_wrap_concatenates_witness :
  exists lines,
    text_wrap 3 "ab cd ef" unit_font 5 = Some lines
    /\ concat_lines (map spaced lines) = "ab cd ef ".
Proof.
  destruct (text_wrap_concatenates 3 "ab cd ef" unit_font 5 (le_n 3))
    as (lines & Hw & Hc & _); [discriminate |].
  exists lines. split; [exact Hw | exact Hc].
Defined.

End TextWrapExtras.

(** ** Lines of [text_wrap] inside the text *)

Module TextWrapSubstrings.
Import PyFacts TextWrapFacts.

Lemma prefix_append (a b : string) : prefix a (a ++ b) = true.
Proof.
  induction a as [| c a IH]; simpl; [now destruct b |].
  destruct (ascii_dec c c); [exact IH | congruence].
Qed.

Lemma prefix_is_substring (a s : string) :
  prefix a s = true -> is_substring a s = true.
Proof. intros H. destruct s; simpl in *; now rewrite H. Qed.

Lemma is_substring_after (x a s : string) :
  is_substring x s = true -> is_substring x (a ++ s) = true.
Proof.
  intros H. induction a as [| c a IH]; [exact H |].
  change (is_substring x (String c (a ++ s)) = true).
  simpl. rewrite IH. apply orb_true_r.
Qed.

Lemma join_cons (w : string) (rest : list string) :
  rest <> [] -> join (w :: rest) = (w ++ " " ++ join rest)%string.
Proof. intros H. destruct rest; [congruence | reflexivity]. Qed.

Lemma join_app (g rest : list string) :
  g <> [] -> rest <> [] ->
  join (g ++ rest) = (join g ++ " " ++ join rest)%string.
Proof.
  intros Hg Hr. induction g as [| w g IH]; [congruence |].
  destruct g as [| w' g].
  - simpl app. now rewrite join_cons.
  - change ((w :: w' :: g) ++ rest) with (w :: (w' :: g) ++ rest).
    rewrite join_cons by discriminate.
    rewrite IH by discriminate.
    rewrite (join_cons w (w' :: g)) by discriminate.
    now rewrite !append_assoc.
Qed.

Lemma join_split (s : string) : join (split s) = s.
Proof.
  induction s as [| c s IH]; [reflexivity |].
  simpl split. pose proof (split_nonempty s) as Hne.
  destruct (Ascii.eqb_spec c " ") as [-> | Hc].
  - rewrite join_cons by exact Hne. now rewrite IH.
  - destruct (split s) as [| w ws]; [congruence |].
    destruct ws as [| w' ws].
    + simpl in IH |- *. now rewrite IH.
    + rewrite <- IH. rewrite !join_cons by discriminate. reflexivity.
Qed.

Lemma greedy_join (g : list string) :
  g <> [] -> greedy g = (join g ++ " ")%string.
Proof.
  intros Hg. induction g as [| w g IH]; [congruence |].
  destruct g as [| w' g]; [reflexivity |].
  rewrite join_cons by discriminate.
  change (greedy (w :: w' :: g)) with (w ++ " " ++ greedy (w' :: g))%string.
  rewrite IH by discriminate. now rewrite !append_assoc.
Qed.

Lemma wrapped_rest_nonempty (font : Font) (max_width : Z)
      (words lines : list string) :
  wrapped font max_width words lines -> lines <> [] -> words <> [].
Proof.
  intros H Hl. destruct H as [| w rest lines _ _ | g rest lines Hg _ _ _];
    [congruence | discriminate |].
  destruct g; [congruence | discriminate].
Qed.

(** Every line of a wrapping is a bare word that is too wide, or a run of
    consecutive words with a space after each; such a run without its last
    space occurs in the words joined by spaces, and the run itself does
    when a line follows it. *)
Lemma wrapped_lines (font : Font) (max_width : Z)
      (words lines : list string) :
  wrapped font max_width words lines ->
  Forall (fun w => split w = [w]) words ->
  forall before line after,
    lines = before ++ line :: after ->
    (ends_with_space line = true
     /\ (exists pre g post,
            g <> [] /\ words = pre ++ g ++ post /\ line = greedy g)
     /\ is_substring (drop_last line) (join words) = true
     /\ (after <> [] -> is_substring line (join words) = true))
    \/ (ends_with_space line = false
        /\ In line words /\ max_width < width font line).
Proof.
  induction 1 as [| w rest lines Hwide Hrest IH
                    | g rest lines Hg Hfit Hstop Hrest IH];
    intros Hwords before line after Hl.
  - destruct before; discriminate.
  - inversion Hwords as [| ? ? Hw Hwr]; subst.
    destruct before as [| x before]; injection Hl as <- Hl.
    + right. split; [now apply word_ends_without_space |].
      split; [now left | exact Hwide].
    + assert (Hne : rest <> []).
      { apply (wrapped_rest_nonempty _ _ _ _ Hrest).
        rewrite Hl. now destruct before. }
      destruct (IH Hwr before line after Hl)
        as [(He & (pre & g & post & Hg & Hr & Hline) & Hd & Ha)
           | (He & Hin & Hwd)].
      * left. split; [exact He |]. split.
        { exists (w :: pre), g, post. rewrite Hr. auto. }
        rewrite join_cons by exact Hne.
        rewrite <- append_assoc. split.
        -- now apply is_substring_after.
        -- intros Haf. now apply is_substring_after, Ha.
      * right. split; [exact He |]. split; [now right | exact Hwd].
  - apply Forall_app in Hwords as [Hwg Hwr].
    destruct before as [| x before]; injection Hl as <- Hl.
    + left. split; [now apply greedy_ends_with_space |]. split.
      { exists [], g, rest. auto. }
      rewrite (greedy_join g Hg), drop_last_space.
      destruct rest as [| r rest].
      * rewrite app_nil_r. split.
        -- apply prefix_is_substring, prefix_refl.
        -- intros Haf. exfalso.
           apply (wrapped_rest_nonempty _ _ _ _ Hrest);
             [rewrite Hl; exact Haf | reflexivity].
      * rewrite join_app by (exact Hg || discriminate). split.
        -- apply prefix_is_substring, prefix_append.
        -- intros _. rewrite <- append_assoc.
           apply prefix_is_substring, prefix_append.
    + assert (Hne : rest <> []).
      { apply (wrapped_rest_nonempty _ _ _ _ Hrest).
        rewrite Hl. now destruct before. }
      destruct (IH Hwr before line after Hl)
        as [(He & (pre & g' & post & Hg' & Hr & Hline) & Hd & Ha)
           | (He & Hin & Hwd)].
      * left. split; [exact He |]. split.
        { exists (g ++ pre), g', post. rewrite Hr, <- app_assoc. auto. }
        rewrite join_app by assumption.
        rewrite <- append_assoc. split.
        -- now apply is_substring_after.
        -- intros Haf. now apply is_substring_after, Ha.
      * right. split; [exact He |].
        split; [apply in_or_app; now right | exact Hwd].
Qed.

(** C10 (amended). When the text does not fit a single line, every line
    that [text_wrap] returns is either a run of consecutive words of the
    text with a space after each, built by accumulation, and then ends
    with a space, or one word of the text wider than [max_width], and then
    does not.  A line of the first kind without its last space is a
    substring of the text, and the line itself is one whenever another
    line follows it. *)
Theorem greedy_lines_end_with_space (fuel : nat) (text : string)
        (font : Font) (max_width : Z) :
  (List.length (split text) <= fuel)%nat ->
  max_width <= width font text ->
  exists lines,
    text_wrap fuel text font max_width = Some lines
    /\ forall before line after,
        lines = before ++ line :: after ->
        (ends_with_space line = true
         /\ (exists pre g post,
                g <> [] /\ split text = pre ++ g ++ post
                /\ line = greedy g)
         /\ is_substring (drop_last line) text = true
         /\ (after <> [] -> is_substring line text = true))
        \/ (ends_with_space line = false
            /\ In line (split text) /\ max_width < width font line).
Proof.
  intros Hfuel Hge.
  destruct (TextWrapExtras.text_wrap_wrapped fuel text font max_width
                                             Hfuel Hge)
    as (lines & Hw & Hwr).
  exists lines. split; [exact Hw |].
  intros before line after Hl.
  pose proof (wrapped_lines font max_width (split text) lines Hwr
                            (split_words text) before line after Hl) as H.
  now rewrite join_split in H.
Qed.

Lemma greedy_lines_end_with_space_witness :
  (List.length (split "ab cd ef") <= 3)%nat
  /\ 5 <= width unit_font "ab cd ef"
  /\ exists lines,
      text_wrap 3 "ab cd ef" unit_font 5 = Some lines
      /\ lines = [] ++ "ab cd " :: ["ef "]
      /\ is_substring "ab cd " "ab cd ef" = true.
Proof.
  split; [apply le_n |]. split; [discriminate |].
  destruct (greedy_lines_end_with_space 3 "ab cd ef" unit_font 5 (le_n 3))
    as (lines & Hw & Hall); [discriminate |].
  exists lines.
  assert (Hl : lines = [] ++ "ab cd " :: ["ef "]).
  { assert (E : text_wrap 3 "ab cd ef" unit_font 5
                = Some ["ab cd "; "ef "]) by reflexivity.
    rewrite E in Hw. now injection Hw as <-. }
  split; [exact Hw |]. split; [exact Hl |].
  destruct (Hall [] "ab cd " ["ef "] Hl)
    as [(_ & _ & _ & Hs) | (He & _)]; [| discriminate He].
  apply Hs. discriminate.
Defined.

End TextWrapSubstrings.

(** ** Further properties of [draw_border] *)

Module DrawBorderExtras.
Import PyFacts.

Lemma int_half_of (a : Z) : Py.int (inject_Z a / 2) = a ÷ 2.
Proof. unfold Py.int; simpl. now rewrite Z.mul_1_r. Qed.

Lemma int_shrink (s : Z) (q : Q) :
  Py.int (inject_Z s * (1 - q))
  = (s * (Zpos (Qden q) - Qnum q)) ÷ Zpos (Qden q).
Proof.
  unfold Py.int, Qminus, Qplus, Qopp, Qmult, inject_Z; cbn [Qnum Qden].
  rewrite !Pos.mul_1_l. f_equal. ring.
Qed.

(** A side shrunk by a factor between 0 and 1 is between 0 and the side. *)
Lemma shrink_bounds (s : Z) (q : Q) :
  0 <= s -> (0 <= q)%Q -> (q <= 1)%Q ->
  0 <= Py.int (inject_Z s * (1 - q)) <= s.
Proof.
  intros Hs H0 H1. rewrite int_shrink.
  unfold Qle in H0, H1; cbn [Qnum Qden] in H0, H1.
  split.
  - apply Z.quot_pos; nia.
  - apply Z.quot_le_upper_bound; nia.
Qed.

Lemma centred_offset (s w : Z) :
  0 <= w <= s -> 0 <= (s - w) ÷ 2 /\ (s - w) ÷ 2 + w <= s.
Proof.
  intros H. rewrite Z.quot_div_nonneg by lia.
  pose proof (Z.div_mod (s - w) 2 ltac:(lia)).
  pose proof (Z.mod_pos_bound (s - w) 2 ltac:(lia)). lia.
Qed.

(** X10. With [radius = 0] the four lines are the sides of the inset box, each
    starting where the previous one ends and the last ending where the
    first starts: top, right, bottom, left; no arc is drawn. *)
Theorem sharp_border_is_closed (image : Image) (xy size : Z * Z)
        (thickness : Z) (shrinkage : Q * Q) :
  let w := fst (shrunk size shrinkage) in
  let h := snd (shrunk size shrinkage) in
  let x := fst xy + (fst size - w) ÷ 2 in
  let y := snd xy + (snd size - h) ÷ 2 in
  draw_border image xy size 0 thickness shrinkage
  = Returns
      (Line (Line (Line (Line image
        (x, y) (x + w, y) "black" thickness)
        (x + w, y) (x + w, y + h) "black" thickness)
        (x + w, y + h) (x, y + h) "black" thickness)
        (x, y + h) (x, y) "black" thickness).
Proof.
  intros w h x y. subst w h x y. unfold draw_border.
  destruct (shrunk size shrinkage) as [w h]. cbn [fst snd Z.eqb negb].
  rewrite !int_half_of.
  repeat (f_equal; try lia).
Qed.

(** X11. When the size is not negative, the shrink factors are between 0 and 1,
    the radius is not negative and twice the radius exceeds neither side
    of the inset box, every point that [draw_border] hands to [line] and
    [arc] lies in the box of the given size at [xy]: a point drawn on the
    returned image is in that box or was drawn on the image before. *)
Theorem border_inside_box (image : Image) (xy size : Z * Z)
        (radius thickness : Z) (shrinkage : Q * Q) :
  0 <= fst size -> 0 <= snd size ->
  (0 <= fst shrinkage)%Q -> (fst shrinkage <= 1)%Q ->
  (0 <= snd shrinkage)%Q -> (snd shrinkage <= 1)%Q ->
  0 <= radius ->
  degenerate size radius shrinkage = false ->
  exists im,
    draw_border image xy size radius thickness shrinkage = Returns im
    /\ forall p, In p (points_drawn im) ->
                 inside xy size p \/ In p (points_drawn image).
Proof.
  intros Hsx Hsy Hx0 Hx1 Hy0 Hy1 Hr Hdeg.
  pose proof (shrink_bounds (fst size) (fst shrinkage) Hsx Hx0 Hx1) as Hw.
  pose proof (shrink_bounds (snd size) (snd shrinkage) Hsy Hy0 Hy1) as Hh.
  unfold degenerate in Hdeg.
  rewrite (DrawBorderFacts.draw_border_returns
             image xy size radius thickness shrinkage Hr).
  unfold shrunk in *. cbn [fst snd] in *.
  set (w := Py.int (inject_Z (fst size) * (1 - fst shrinkage))) in *.
  set (h := Py.int (inject_Z (snd size) * (1 - snd shrinkage))) in *.
  apply orb_false_iff in Hdeg as [Hdw Hdh].
  apply Z.ltb_ge in Hdw, Hdh.
  pose proof (centred_offset (fst size) w Hw) as [Ox0 Ox1].
  pose proof (centred_offset (snd size) h Hh) as [Oy0 Oy1].
  eexists. split; [reflexivity |].
  destruct (Z.eqb_spec radius 0) as [-> | Hne];
    cbn [points_drawn In];
    intros p Hp;
    repeat (destruct Hp as [<- | Hp];
            [left; unfold inside; cbn [fst snd]; lia |]);
    now right.
Qed.

Lemma border_inside_box_witness :
  exists im,
    draw_border canvas (20, 30) (100, 60) 5 1 (1 # 2, 1 # 2)%Q = Returns im
    /\ forall p, In p (points_drawn im) ->
                 inside (20, 30) (100, 60) p \/ In p (points_drawn canvas).
Proof.
  apply (border_inside_box canvas (20, 30) (100, 60) 5 1 (1 # 2, 1 # 2)%Q);
    try discriminate; reflexivity.
Defined.

(** X12. With a radius above 0 the four lines and the four arcs make one
    closed outline: each arc starts where a line ends and ends where the
    next line starts (top-left arc from the left line to the top line,
    top-right from the top line to the right line, bottom-right from the
    right line to the bottom line, bottom-left from the bottom line to the
    left line). *)
Theorem rounded_border_is_closed (image : Image) (xy size : Z * Z)
        (radius thickness : Z) (shrinkage : Q * Q) :
  0 < radius ->
  exists p1 p2 p3 p4 p5 p6 p7 p8 c1 c2 c3 c4 c5 c6 c7 c8,
    draw_border image xy size radius thickness shrinkage
    = Returns
        (Arc (Arc (Arc (Arc
          (Line (Line (Line (Line image
            p1 p2 "black" thickness)
            p3 p4 "black" thickness)
            p5 p6 "black" thickness)
            p7 p8 "black" thickness)
          c1 c2 180 270 "black" thickness)
          c3 c4 270 360 "black" thickness)
          c5 c6 0 90 "black" thickness)
          c7 c8 90 180 "black" thickness)
    /\ arc_point c1 c2 180 = Some p8 /\ arc_point c1 c2 270 = Some p1
    /\ arc_point c3 c4 270 = Some p2 /\ arc_point c3 c4 360 = Some p3
    /\ arc_point c5 c6 0 = Some p4 /\ arc_point c5 c6 90 = Some p5
    /\ arc_point c7 c8 90 = Some p6 /\ arc_point c7 c8 180 = Some p7.
Proof.
  intros Hr.
  rewrite (DrawBorderFacts.draw_border_returns
             image xy size radius thickness shrinkage (Z.lt_le_incl _ _ Hr)).
  destruct (Z.eqb_spec radius 0) as [-> | _]; [lia |].
  do 16 eexists. split; [reflexivity |].
  assert (Hmid : forall a b m, a + b = m * 2 -> (a + b) / 2 = m).
  { intros a b m ->. apply Z.div_mul. discriminate. }
  assert (Hbox : forall a b c d k,
             0 < k -> c = a + k * 2 -> d = b + k * 2 ->
             (c <? a) || (d <? b) = false).
  { intros a b c d k Hk -> ->. apply orb_false_iff.
    split; apply Z.ltb_ge; lia. }
  unfold arc_point; cbn [fst snd].
  rewrite !(Hbox _ _ _ _ radius Hr) by ring.
  cbn [Z.eqb orb Pos.eqb].
  repeat split; f_equal; f_equal; try (apply Hmid; ring); try ring.
Qed.

Lemma rounded_border_is_closed_witness :
  exists im,
    draw_border canvas (20, 30) (100, 60) 5 1 (1 # 2, 1 # 2)%Q = Returns im
    /\ arcs_drawn im = 4%nat.
Proof.
  destruct (rounded_border_is_closed canvas (20, 30) (100, 60) 5 1
                                     (1 # 2, 1 # 2)%Q)
    as (p1 & p2 & p3 & p4 & p5 & p6 & p7 & p8
        & c1 & c2 & c3 & c4 & c5 & c6 & c7 & c8 & H & _);
    [reflexivity |].
  eexists. split; [exact H | reflexivity].
Defined.

End DrawBorderExtras.

(** ** The slideshow module *)

Module SlideshowFacts.
Import Slideshow.

(** *** Rotating a list *)

Lemma rotate_length {A : Type} (l : list A) :
  List.length (rotate l) = List.length l.
Proof.
  unfold rotate. rewrite length_app, length_skipn, length_firstn.
  destruct l; simpl; lia.
Qed.

Lemma rotate_not_nil {A : Type} (l : list A) : l <> [] -> rotate l <> [].
Proof.
  intros Hl Hr. apply (f_equal (@List.length A)) in Hr.
  rewrite rotate_length in Hr. destruct l; [congruence | discriminate].
Qed.

Lemma rotate_permutation {A : Type} (l : list A) : Permutation (rotate l) l.
Proof.
  unfold rotate. rewrite Permutation_app_comm.
  now rewrite firstn_skipn.
Qed.

(** [k] rotations move the first [k] elements to the end. *)
Lemma iter_rotate {A : Type} (l : list A) (k : nat) :
  (k <= List.length l)%nat ->
  Nat.iter k rotate l = skipn k l ++ firstn k l.
Proof.
  induction k as [| k IH]; intros Hk.
  - simpl. now rewrite app_nil_r.
  - simpl Nat.iter. rewrite IH by lia.
    destruct (skipn k l) as [| x r] eqn:S.
    + apply (f_equal (@List.length A)) in S.
      rewrite length_skipn in S. simpl in S. lia.
    + assert (Hx : nth_error l k = Some x).
      { rewrite <- hd_error_skipn, S. reflexivity. }
      assert (Hr : skipn (Datatypes.S k) l = r).
      { replace (Datatypes.S k) with (1 + k)%nat by lia.
        rewrite <- skipn_skipn, S. reflexivity. }
      rewrite Hr. unfold rotate. simpl.
      rewrite <- app_assoc. f_equal.
      clear - Hx. revert l Hx; induction k as [| k IH]; intros [| y l] Hx;
        simpl in *; try discriminate.
      * now injection Hx as ->.
      * f_equal. now apply IH.
Qed.

Lemma iter_rotate_full {A : Type} (l : list A) :
  Nat.iter (List.length l) rotate l = l.
Proof.
  rewrite iter_rotate by lia.
  now rewrite skipn_all, firstn_all.
Qed.

Lemma iter_rotate_turns {A : Type} (l : list A) (q : nat) :
  Nat.iter (q * List.length l) rotate l = l.
Proof.
  induction q as [| q IH]; [reflexivity |].
  simpl Nat.mul. rewrite Nat.iter_add, IH. apply iter_rotate_full.
Qed.

Lemma iter_rotate_mod {A : Type} (l : list A) (k : nat) :
  l <> [] ->
  Nat.iter k rotate l = Nat.iter (k mod List.length l) rotate l.
Proof.
  intros Hl.
  assert (Hn : List.length l <> O) by (destruct l; [congruence | discriminate]).
  pose proof (Nat.div_mod_eq k (List.length l)) as E.
  set (r := (k mod List.length l)%nat) in *.
  set (q := (k / List.length l)%nat) in *.
  rewrite E, Nat.add_comm, Nat.iter_add, Nat.mul_comm.
  now rewrite iter_rotate_turns.
Qed.

Lemma hd_iter_rotate {A : Type} (l : list A) (k : nat) (d : A) :
  l <> [] ->
  hd d (Nat.iter k rotate l) = nth (k mod List.length l) l d.
Proof.
  intros Hl.
  assert (Hn : List.length l <> O) by (destruct l; [congruence | discriminate]).
  pose proof (Nat.mod_upper_bound k (List.length l) Hn) as Hlt.
  rewrite (iter_rotate_mod l k Hl), iter_rotate by lia.
  rewrite (TextWrapExtras.skipn_nth_cons l _ d Hlt). reflexivity.
Qed.

(** *** One call *)

Lemma generate_image_returns (self : Slideshow) :
  self_images self <> [] ->
  exists self' shown first,
    generate_image self = Returns (self', shown)
    /\ self_images self'
       = Nat.iter (if self_first_run self then 0 else 1)%nat rotate
                  (self_images self)
    /\ hd_error (self_images self') = Some first
    /\ self_first_run self' = false
    /\ shown_path shown = Some first
    /\ printed shown
       = ("slideshow - current image name: "
            ++ last (split_on "/" first) "")%string.
Proof.
  intros Hne. unfold generate_image.
  destruct (self_first_run self); cbn [Bool.eqb self_images Nat.iter].
  - destruct (self_images self) as [| first rest] eqn:E; [congruence |].
    do 3 eexists. split; [reflexivity |]. cbn [self_images self_first_run].
    split; [reflexivity |]. split; [reflexivity |]. split; [reflexivity |].
    split; [| reflexivity]. unfold shown_path; cbn.
    now destruct (eq_True (self_autoflip self)).
  - pose proof (rotate_not_nil _ Hne) as Hr.
    destruct (rotate (self_images self)) as [| first rest] eqn:E;
      [congruence |].
    do 3 eexists. split; [reflexivity |]. cbn [self_images self_first_run].
    split; [symmetry; exact E |].
    split; [reflexivity |]. split; [reflexivity |].
    split; [| reflexivity]. unfold shown_path; cbn.
    now destruct (eq_True (self_autoflip self)).
Qed.

(** *** Many calls *)

Lemma generate_images_returns (n : nat) (self : Slideshow) :
  self_images self <> [] ->
  exists self' shown,
    generate_images n self = Returns (self', shown)
    /\ map (fun sh => (shown_path sh, printed sh)) shown
       = map (fun k =>
                let first :=
                  hd "" (Nat.iter
                           (k + if self_first_run self then 0 else 1)%nat
                           rotate (self_images self)) in
                (Some first,
                 ("slideshow - current image name: "
                    ++ last (split_on "/" first) "")%string))
             (seq 0 n).
Proof.
  revert self; induction n as [| n IH]; intros self Hne.
  - do 2 eexists. split; reflexivity.
  - destruct (generate_image_returns self Hne)
      as (self1 & sh & first & Hg & Him & Hhd & Hfr & Hp & Hpr).
    assert (Hne1 : self_images self1 <> []).
    { intros E. rewrite E in Hhd. discriminate. }
    destruct (IH self1 Hne1) as (self2 & shown & Hgs & Hmap).
    exists self2, (sh :: shown). split.
    + cbn [generate_images]. rewrite Hg. cbn [bind fst snd].
      rewrite Hgs. reflexivity.
    + rewrite <- cons_seq, <- seq_shift. cbn [map]. rewrite map_map.
      cbn [Nat.add]. f_equal.
      * rewrite Hp, Hpr, <- Him.
        destruct (self_images self1); [discriminate |].
        now injection Hhd as ->.
      * rewrite Hmap. apply map_ext. intros k.
        rewrite Hfr, Him, <- Nat.iter_add.
        replace (k + 1 + (if self_first_run self then 0 else 1))%nat
          with (Datatypes.S k + (if self_first_run self then 0 else 1))%nat
          by lia.
        reflexivity.
Qed.

(** *** The constructor *)

Lemma init_dict_returns (env : Env) (tm : Template) (config : Dict)
      (self : Slideshow) :
  init_dict env tm config = Returns self <->
  exists palette autoflip orientation names,
    lookup "palette" config = Some palette
    /\ lookup "autoflip" config = Some autoflip
    /\ lookup "orientation" config = Some orientation
    /\ listdir env (IMAGE_DIR env) = Returns names
    /\ names <> []
    /\ self = {| self_width := tm_width tm;
                 self_height := tm_height tm;
                 self_padding_left := tm_padding_left tm;
                 self_padding_top := tm_padding_top tm;
                 self_palette := palette;
                 self_autoflip := autoflip;
                 self_orientation := orientation;
                 self_images :=
                   map (fun im => (IMAGE_DIR env ++ im)%string) names;
                 self_first_run := true |}.
Proof.
  unfold init_dict, requires, missing, getitem, bind. split.
  - intros H.
    destruct (lookup "palette" config) as [palette |]; [| discriminate].
    destruct (lookup "autoflip" config) as [autoflip |]; [| discriminate].
    destruct (lookup "orientation" config) as [orientation |];
      [| discriminate].
    destruct (listdir env (IMAGE_DIR env)) as [names | e]; [| discriminate].
    destruct names as [| nm names]; [discriminate |].
    injection H as <-.
    exists palette, autoflip, orientation, (nm :: names).
    repeat split. discriminate.
  - intros (palette & autoflip & orientation & names
            & -> & -> & -> & -> & Hne & ->).
    destruct names as [| nm names]; [congruence | reflexivity].
Qed.

Lemma init_returns (env : Env) (config : Dict) (self : Slideshow) :
  init env config = Returns self <->
  exists tm inner palette autoflip orientation names,
    template_init env config = Returns tm
    /\ lookup "config" config = Some (CDict inner)
    /\ lookup "palette" inner = Some palette
    /\ lookup "autoflip" inner = Some autoflip
    /\ lookup "orientation" inner = Some orientation
    /\ listdir env (IMAGE_DIR env) = Returns names
    /\ names <> []
    /\ self = {| self_width := tm_width tm;
                 self_height := tm_height tm;
                 self_padding_left := tm_padding_left tm;
                 self_padding_top := tm_padding_top tm;
                 self_palette := palette;
                 self_autoflip := autoflip;
                 self_orientation := orientation;
                 self_images :=
                   map (fun im => (IMAGE_DIR env ++ im)%string) names;
                 self_first_run := true |}.
Proof.
  unfold init, bind, getitem. split.
  - intros H.
    destruct (template_init env config) as [tm | e]; [| discriminate].
    destruct (lookup "config" config) as [[s | b | n | inner] |];
      try discriminate.
    + destruct (is_substring "palette" s); discriminate.
    + apply init_dict_returns in H
          as (palette & autoflip & orientation & names & H).
      exists tm, inner, palette, autoflip, orientation, names. tauto.
  - intros (tm & inner & palette & autoflip & orientation & names
            & -> & -> & H).
    apply init_dict_returns.
    exists palette, autoflip, orientation, names. exact H.
Qed.

End SlideshowFacts.

Module SlideshowTheorems.
Import Slideshow SlideshowFacts.

(** X13. The nested [rotate] of [generate_image] keeps the elements of the list
    and its length, and as many rotations as the list has elements give the
    list back. *)
Theorem rotate_full_turn {A : Type} (l : list A) :
  Permutation (rotate l) l
  /\ List.length (rotate l) = List.length l
  /\ Nat.iter (List.length l) rotate l = l.
Proof.
  split; [apply rotate_permutation |].
  split; [apply rotate_length | apply iter_rotate_full].
Qed.

(** X14. [Slideshow.__init__] returns exactly when the base class initialiser
    returns, [config['config']] is a dictionary that has the keys
    [palette], [autoflip] and [orientation], and the image directory lists
    at least one name; the object then holds the three values, the names in
    listing order, each prefixed with [IMAGE_DIR], and the first-run flag
    set. *)
Theorem init_returns_iff (env : Env) (config : Dict) (self : Slideshow) :
  init env config = Returns self <->
  exists tm inner palette autoflip orientation names,
    template_init env config = Returns tm
    /\ lookup "config" config = Some (CDict inner)
    /\ lookup "palette" inner = Some palette
    /\ lookup "autoflip" inner = Some autoflip
    /\ lookup "orientation" inner = Some orientation
    /\ listdir env (IMAGE_DIR env) = Returns names
    /\ names <> []
    /\ self = {| self_width := tm_width tm;
                 self_height := tm_height tm;
                 self_padding_left := tm_padding_left tm;
                 self_padding_top := tm_padding_top tm;
                 self_palette := palette;
                 self_autoflip := autoflip;
                 self_orientation := orientation;
                 self_images :=
                   map (fun im => (IMAGE_DIR env ++ im)%string) names;
                 self_first_run := true |}.
Proof.
  split.
  - intros H. now apply init_returns in H.
  - intros H. now apply init_returns.
Qed.

Lemma init_returns_iff_witness :
  init sample_env sample_config = Returns sample_slideshow.
Proof.
  apply (proj2 (init_returns_iff sample_env sample_config sample_slideshow)).
  exists {| tm_width := 400; tm_height := 300;
            tm_padding_left := 10; tm_padding_top := 5 |},
    sample_inner, (CStr "bw"), (CBool false), (CStr "vertical"),
    ["a.png"; "b.png"; "c.png"].
  repeat split. discriminate.
Defined.

(** X15. When the base class initialiser returns and [config['config']] is a
    dictionary, [Slideshow.__init__] raises: the exception "config is
    missing palette" when [palette] is missing; a [KeyError] when
    [autoflip], or else [orientation], is missing, although both are
    declared optional; [FileNotFoundError] when the directory lists
    nothing. *)
Theorem init_errors (env : Env) (config inner : Dict) (tm : Template) :
  template_init env config = Returns tm ->
  lookup "config" config = Some (CDict inner) ->
  (lookup "palette" inner = None ->
   init env config = Raises "Exception: config is missing palette")
  /\ (lookup "palette" inner <> None ->
      lookup "autoflip" inner = None ->
      init env config = Raises "KeyError: autoflip")
  /\ (lookup "palette" inner <> None ->
      lookup "autoflip" inner <> None ->
      lookup "orientation" inner = None ->
      init env config = Raises "KeyError: orientation")
  /\ (lookup "palette" inner <> None ->
      lookup "autoflip" inner <> None ->
      lookup "orientation" inner <> None ->
      listdir env (IMAGE_DIR env) = Returns [] ->
      init env config
      = Raises
          "FileNotFoundError: No images found in the given folder path :/").
Proof.
  intros Ht Hc.
  unfold init, bind, getitem. rewrite Ht, Hc.
  unfold init_dict, requires, missing, getitem, bind.
  destruct (lookup "palette" inner) as [palette |];
    destruct (lookup "autoflip" inner) as [autoflip |];
    destruct (lookup "orientation" inner) as [orientation |];
    repeat split; try congruence; try reflexivity.
  intros _ _ _ ->. reflexivity.
Qed.

Lemma init_errors_witness :
  init sample_env [("config", CDict [("palette", CStr "bw")])]
  = Raises "KeyError: autoflip".
Proof.
  refine (proj1 (proj2 (init_errors sample_env
                          [("config", CDict [("palette", CStr "bw")])]
                          [("palette", CStr "bw")] _ eq_refl eq_refl)) _ _).
  - discriminate.
  - reflexivity.
Defined.



(** X17. After [Slideshow.__init__] has returned, any number of calls of
    [generate_image] return, and call number [k], counting from 0, loads
    image number [k mod n] of the [n] images found at initialisation: the
    first call shows the first image and the slideshow cycles in listing
    order. *)
Theorem slideshow_cycles (env : Env) (config : Dict) (self : Slideshow)
        (n : nat) :
  init env config = Returns self ->
  exists self' shown,
    generate_images n self = Returns (self', shown)
    /\ map shown_path shown
       = map (fun k => Some (nth (k mod List.length (self_images self))
                                 (self_images self) ""))
             (seq 0 n).
Proof.
  intros Hi.
  apply init_returns in Hi
      as (tm & inner & palette & autoflip & orientation & names
          & _ & _ & _ & _ & _ & _ & Hne & ->).
  set (self := {| self_width := tm_width tm |}).
  assert (Hims : self_images self <> []).
  { subst self; cbn [self_images]. destruct names; [congruence | discriminate]. }
  destruct (generate_images_returns n self Hims) as (self' & shown & Hg & Hm).
  exists self', shown. split; [exact Hg |].
  transitivity (map fst (map (fun sh => (shown_path sh, printed sh)) shown)).
  { rewrite map_map. now apply map_ext. }
  rewrite Hm, map_map. apply map_ext. intros k. cbn [fst].
  change (self_first_run self) with true. rewrite Nat.add_0_r.
  now rewrite hd_iter_rotate.
Qed.

Lemma slideshow_cycles_witness :
  exists self' shown,
    generate_images 5 sample_slideshow = Returns (self', shown)
    /\ map shown_path shown
       = [Some "/img/a.png"; Some "/img/b.png"; Some "/img/c.png";
          Some "/img/a.png"; Some "/img/b.png"].
Proof.
  exact (slideshow_cycles sample_env sample_config sample_slideshow 5
                          eq_refl).
Defined.

End SlideshowTheorems.

Module SlideshowPrinting.
Import Slideshow SlideshowFacts.

Lemma split_on_nonempty (sep : ascii) (s : string) : split_on sep s <> [].
Proof.
  induction s as [| c s IH]; simpl; [discriminate |].
  destruct (Ascii.eqb c sep); [discriminate |].
  destruct (split_on sep s); discriminate.
Qed.

Lemma split_on_append (sep : ascii) (a b : string) :
  split_on sep (a ++ String sep b) = split_on sep a ++ split_on sep b.
Proof.
  induction a as [| c a IH]; simpl.
  - now rewrite Ascii.eqb_refl.
  - destruct (Ascii.eqb c sep); [now rewrite IH |].
    rewrite IH. pose proof (split_on_nonempty sep a) as Ha.
    destruct (split_on sep a) as [| w ws]; [congruence | reflexivity].
Qed.

(** The last component of a directory, a separator and a name without
    separator is the name. *)
Lemma last_component (sep : ascii) (dir name : string) :
  split_on sep name = [name] ->
  last (split_on sep (dir ++ String sep name)) "" = name.
Proof.
  intros Hn. rewrite split_on_append, Hn. apply last_last.
Qed.

(** X18. When [IMAGE_DIR] ends with "/" and no listed name contains one, call
    number [k] of [generate_image] prints the listed name number
    [k mod n], without the directory. *)
Theorem slideshow_prints_file_names (env : Env) (config : Dict)
        (self : Slideshow) (dir : string) (names : list string) (n : nat) :
  init env config = Returns self ->
  IMAGE_DIR env = (dir ++ "/")%string ->
  listdir env (IMAGE_DIR env) = Returns names ->
  Forall (fun name => split_on "/" name = [name]) names ->
  exists self' shown,
    generate_images n self = Returns (self', shown)
    /\ map printed shown
       = map (fun k =>
                ("slideshow - current image name: "
                   ++ nth (k mod List.length names) names "")%string)
             (seq 0 n).
Proof.
  intros Hi Hdir Hls Hnames.
  apply init_returns in Hi
      as (tm & inner & palette & autoflip & orientation & names'
          & _ & _ & _ & _ & _ & Hls' & Hne & ->).
  rewrite Hls in Hls'. injection Hls' as <-.
  set (self := {| self_width := tm_width tm |}).
  assert (Hims : self_images self <> []).
  { subst self; cbn [self_images]. destruct names; [congruence | discriminate]. }
  destruct (generate_images_returns n self Hims) as (self' & shown & Hg & Hm).
  exists self', shown. split; [exact Hg |].
  transitivity (map snd (map (fun sh => (shown_path sh, printed sh)) shown)).
  { rewrite map_map. now apply map_ext. }
  rewrite Hm, map_map. apply map_ext. intros k. cbn [snd].
  change (self_first_run self) with true. rewrite Nat.add_0_r.
  rewrite hd_iter_rotate by exact Hims. f_equal.
  subst self; cbn [self_images]. rewrite length_map.
  assert (Hlen : List.length names <> O)
    by (destruct names; [congruence | discriminate]).
  pose proof (Nat.mod_upper_bound k (List.length names) Hlen) as Hlt.
  set (j := (k mod List.length names)%nat) in *.
  rewrite (nth_indep _ "" (IMAGE_DIR env ++ "")%string)
    by (rewrite length_map; exact Hlt).
  rewrite (map_nth (fun im => (IMAGE_DIR env ++ im)%string)), Hdir.
  rewrite TextWrapFacts.append_assoc. apply last_component.
  rewrite Forall_forall in Hnames. apply Hnames. now apply nth_In.
Qed.

Lemma slideshow_prints_file_names_witness :
  exists self' shown,
    generate_images 4 sample_slideshow = Returns (self', shown)
    /\ map printed shown
       = ["slideshow - current image name: a.png";
          "slideshow - current image name: b.png";
          "slideshow - current image name: c.png";
          "slideshow - current image name: a.png"].
Proof.
  refine (slideshow_prints_file_names sample_env sample_config
            sample_slideshow "/img" ["a.png"; "b.png"; "c.png"] 4
            eq_refl eq_refl eq_refl _).
  repeat constructor.
Defined.

End SlideshowPrinting.
